(** * Gobblet Gobblers tic-tac-toe: rules engine and bot of [script.js]

    A shallow embedding of the game logic of [src/script.js] (the file
    [src/script-commented.js] holds the same functions with comments), and
    the properties of the specification proved about it.

    The DOM side of the script (rendering, highlighting, pop-ups, status
    texts) reads the game state and never writes it; it is left out, except
    for what [endGame] records. *)

From Stdlib Require Import ZArith Lia Bool.
From stdpp Require Import base tactics option list vector fin strings.

Local Open Scope Z_scope.

(** ** Section 2 of the script: the game state *)

(** The two players, the strings ["X"] and ["O"]. *)
Inductive Player := X | O.

(** The three piece sizes, the strings ["small"], ["medium"], ["large"]. *)
Inductive Size := small | medium | large.

Global Instance Player_eq_dec : EqDecision Player.
Proof. solve_decision. Defined.

Global Instance Size_eq_dec : EqDecision Size.
Proof. solve_decision. Defined.

(** A piece is the object [{ player, size }]. *)
Record Piece := mkPiece { player : Player; size : Size }.

Global Instance Piece_eq_dec : EqDecision Piece.
Proof. solve_decision. Defined.

(** A stack is a JS array of pieces: index 0 is the bottom, [push] appends
    at the end and [pop] removes the last element. *)
Abbreviation Stack := (list Piece).

(** [board] is [Array(9).fill(null).map(() => [])]: always nine stacks. The
    script only ever indexes it with 0..8 (loop counters, cell indices bound
    by [createBoard], and the fields of generated moves), hence [fin 9]. *)
Abbreviation Cell := (fin 9).
Abbreviation Board := (vec Stack 9).

(** [{ small: n, medium: n, large: n }] *)
Record Counts := mkCounts { n_small : Z; n_medium : Z; n_large : Z }.

(** [piecesLeft = { X: {...}, O: {...} }] *)
Record PiecesLeft := mkPiecesLeft { left_X : Counts; left_O : Counts }.

Global Instance Counts_eq_dec : EqDecision Counts.
Proof. solve_decision. Defined.

Global Instance PiecesLeft_eq_dec : EqDecision PiecesLeft.
Proof. solve_decision. Defined.

(** The two globals every rule and the search read and write. *)
Record State := mkState { board : Board; piecesLeft : PiecesLeft }.

Global Instance State_eq_dec : EqDecision State.
Proof. solve_decision. Defined.

(** [counts[size]] *)
Definition count_get (c : Counts) (sz : Size) : Z :=
  match sz with
  | small => n_small c
  | medium => n_medium c
  | large => n_large c
  end.

(** [counts[size] = v] *)
Definition count_set (c : Counts) (sz : Size) (v : Z) : Counts :=
  match sz with
  | small => mkCounts v (n_medium c) (n_large c)
  | medium => mkCounts (n_small c) v (n_large c)
  | large => mkCounts (n_small c) (n_medium c) v
  end.

(** [piecesLeft[player][size]] *)
Definition left_get (pl : PiecesLeft) (p : Player) (sz : Size) : Z :=
  match p with
  | X => count_get (left_X pl) sz
  | O => count_get (left_O pl) sz
  end.

(** [piecesLeft[player][size] = v] *)
Definition left_set (pl : PiecesLeft) (p : Player) (sz : Size) (v : Z)
  : PiecesLeft :=
  match p with
  | X => mkPiecesLeft (count_set (left_X pl) sz v) (left_O pl)
  | O => mkPiecesLeft (left_X pl) (count_set (left_O pl) sz v)
  end.

(** The state at page load and after the reset button. *)
Definition initialCounts : Counts := mkCounts 2 2 2.

Definition initialState : State :=
  mkState (vreplicate 9 []) (mkPiecesLeft initialCounts initialCounts).

(** [stack[stack.length - 1]]: [undefined] ([None]) on an empty array. *)
Definition top (st : Stack) : option Piece := last st.

(** [board[i][board[i].length - 1]] *)
Definition topAt (b : Board) (i : Cell) : option Piece := top (b !!! i).

(** [stack.push(p)] *)
Definition push (st : Stack) (p : Piece) : Stack := st ++ [p].

(** [stack.pop()]: the popped element and the shortened array; on an empty
    array JS returns [undefined] and leaves the array as it is. *)
Definition pop (st : Stack) : option Piece * Stack := (last st, removelast st).

(** The cells in the order of [for (let i = 0; i < 9; i++)]. *)
Definition cells : list Cell :=
  [0%fin; 1%fin; 2%fin; 3%fin; 4%fin; 5%fin; 6%fin; 7%fin; 8%fin].

(** ** Section 6 of the script: legality and the win test *)

(** [arr.indexOf(x)]: the first position of [x], or -1. *)
Fixpoint indexOf {A} `{EqDecision A} (l : list A) (x : A) : Z :=
  match l with
  | [] => -1
  | y :: r =>
      if decide (y = x) then 0
      else let k := indexOf r x in if k <? 0 then -1 else k + 1
  end.

Definition sizeOrder : list Size := [small; medium; large].

Definition canPlace (index : Cell) (p : Player) (sz : Size) (isMove : bool)
  (s : State) : bool :=
  let newVal := indexOf sizeOrder sz in
  let stack := board s !!! index in
  let topVal :=
    match top stack with
    | Some t => indexOf sizeOrder (size t)
    | None => -1
    end in
  if newVal <=? topVal then false
  else if negb isMove && (left_get (piecesLeft s) p sz <=? 0) then false
  else true.

(** [A && B && C && A.player === B.player && B.player === C.player] *)
Definition sameOwner (A B C : option Piece) : bool :=
  match A, B, C with
  | Some a, Some b, Some c =>
      bool_decide (player a = player b) && bool_decide (player b = player c)
  | _, _, _ => false
  end.

Abbreviation Line := (Cell * Cell * Cell)%type.

(** The constant [wins] local to [checkWinner]. *)
Definition checkWinner_wins : list Line :=
  [ (0, 1, 2); (3, 4, 5); (6, 7, 8);
    (0, 3, 6); (1, 4, 7); (2, 5, 8);
    (0, 4, 8); (2, 4, 6) ]%fin.

(** The loop [for (let [a,b,c] of wins)] of [checkWinner]. *)
Fixpoint checkWinner_scan (b : Board) (wins : list Line) : bool :=
  match wins with
  | [] => false
  | (a, b', c) :: rest =>
      if sameOwner (topAt b a) (topAt b b') (topAt b c) then true
      else checkWinner_scan b rest
  end.

Definition checkWinner (s : State) : bool :=
  checkWinner_scan (board s) checkWinner_wins.

(** ** Section 9 of the script: moves of the bot *)

(** [{ type:"place", index, size }] and [{ type:"move", from, to, size }] *)
Inductive Move :=
  | place (index : Cell) (sz : Size)
  | move (from to : Cell) (sz : Size).

Global Instance Move_eq_dec : EqDecision Move.
Proof. solve_decision. Defined.

(** The inner loop over [i] of the placement part: every accepted cell is
    pushed at the end of [moves]. *)
Definition generate_places (p : Player) (s : State) (sz : Size)
  (moves : list Move) : list Move :=
  fold_left
    (fun acc i => if canPlace i p sz false s then acc ++ [place i sz] else acc)
    cells moves.

(** The inner loop over [to] of the relocation part. *)
Definition generate_relocations (p : Player) (s : State) (from : Cell)
  (t : Piece) (moves : list Move) : list Move :=
  fold_left
    (fun acc to =>
       if bool_decide (to ≠ from) && canPlace to p (size t) true s
       then acc ++ [move from to (size t)] else acc)
    cells moves.

Definition generateAllMoves (p : Player) (s : State) : list Move :=
  let moves :=
    fold_left
      (fun acc sz =>
         if 0 <? left_get (piecesLeft s) p sz
         then generate_places p s sz acc else acc)
      sizeOrder [] in
  fold_left
    (fun acc from =>
       match top (board s !!! from) with
       | None => acc                                  (* !stack.length *)
       | Some t =>
           if bool_decide (player t ≠ p) then acc
           else generate_relocations p s from t acc
       end)
    cells moves.

(** *** The state and error monad of the mutating functions

    The functions below work on the globals [board] and [piecesLeft]; a
    computation takes the state and gives a result with the new state. It
    gives [None] where the script leaves the typed model: a relocation that
    pops an empty array gets [undefined], which the script would push as if
    it were a piece (in [applyMove], [renderBoard] then throws at
    [top.player]). No generated move and no move made by a click does
    that. *)
Definition M (A : Type) : Type := State → option (A * State).

Global Instance M_ret : MRet M := λ A a s, Some (a, s).

Global Instance M_bind : MBind M := λ A B f m s,
  match m s with
  | Some (a, s') => f a s'
  | None => None
  end.

(** Reading the globals. *)
Definition gets {A} (f : State → A) : M A := λ s, Some (f s, s).

Definition applyMove (m : Move) (p : Player) : M unit := λ s,
  match m with
  | place index sz =>
      let b := vinsert index (push (board s !!! index) (mkPiece p sz)) (board s) in
      let pl := left_set (piecesLeft s) p sz (left_get (piecesLeft s) p sz - 1) in
      Some (tt, mkState b pl)
  | move from to _ =>
      match pop (board s !!! from) with
      | (Some mv, rest) =>
          let b := vinsert from rest (board s) in
          Some (tt, mkState (vinsert to (push (b !!! to) mv) b) (piecesLeft s))
      | (None, _) => None
      end
  end.

Definition undoMoveGeneric (m : Move) (p : Player) : M unit := λ s,
  match m with
  | place index sz =>
      let b := vinsert index (snd (pop (board s !!! index))) (board s) in
      let pl := left_set (piecesLeft s) p sz (left_get (piecesLeft s) p sz + 1) in
      Some (tt, mkState b pl)
  | move from to _ =>
      match pop (board s !!! to) with
      | (Some mv, rest) =>
          let b := vinsert to rest (board s) in
          Some (tt, mkState (vinsert from (push (b !!! from) mv) b) (piecesLeft s))
      | (None, _) => None
      end
  end.

(** ** Section 10 of the script: strategies and the winner test *)

(** The constant [wins] local to [detectWinnerPlayer]. *)
Definition detectWinnerPlayer_wins : list Line :=
  [ (0, 1, 2); (3, 4, 5); (6, 7, 8);
    (0, 3, 6); (1, 4, 7); (2, 5, 8);
    (0, 4, 8); (2, 4, 6) ]%fin.

(** The loop of [detectWinnerPlayer]; it returns [A.player]. *)
Fixpoint detectWinnerPlayer_scan (b : Board) (wins : list Line)
  : option Player :=
  match wins with
  | [] => None
  | (a, b', c) :: rest =>
      if sameOwner (topAt b a) (topAt b b') (topAt b c)
      then player <$> topAt b a
      else detectWinnerPlayer_scan b rest
  end.

Definition detectWinnerPlayer (s : State) : option Player :=
  detectWinnerPlayer_scan (board s) detectWinnerPlayer_wins.

(** [bot === "O" ? "X" : "O"] *)
Definition opponentOf (bot : Player) : Player :=
  if bool_decide (bot = O) then X else O.

(** The loop [for (let m of moves)] of [findWinningMoveGeneric]. *)
Fixpoint findWinning_loop (p : Player) (moves : list Move) : M (option Move) :=
  match moves with
  | [] => mret None
  | m :: rest =>
      applyMove m p ;;
      win ← gets checkWinner;
      undoMoveGeneric m p ;;
      if win : bool then mret (Some m) else findWinning_loop p rest
  end.

Definition findWinningMoveGeneric (p : Player) : M (option Move) :=
  moves ← gets (generateAllMoves p);
  findWinning_loop p moves.

(** The loop of [findBlockingMoveGeneric]. *)
Fixpoint findBlocking_loop (bot opponent : Player) (moves : list Move)
  : M (option Move) :=
  match moves with
  | [] => mret None
  | m :: rest =>
      applyMove m bot ;;
      stillWin ← findWinningMoveGeneric opponent;
      undoMoveGeneric m bot ;;
      match stillWin with
      | None => mret (Some m)
      | Some _ => findBlocking_loop bot opponent rest
      end
  end.

Definition findBlockingMoveGeneric (bot : Player) : M (option Move) :=
  let opponent := opponentOf bot in
  oppWin ← findWinningMoveGeneric opponent;
  match oppWin with
  | None => mret None
  | Some _ =>
      moves ← gets (generateAllMoves bot);
      findBlocking_loop bot opponent moves
  end.

(** ** Section 11 of the script: minimax *)

(** Scores are JS numbers: integers here, with [-Infinity] and [Infinity]. *)
Inductive Num := NegInf | Int (z : Z) | PosInf.

Global Instance Num_eq_dec : EqDecision Num.
Proof. solve_decision. Defined.

(** [a <= b] *)
Definition Num_le (a b : Num) : bool :=
  match a, b with
  | NegInf, _ => true
  | _, PosInf => true
  | Int x, Int y => x <=? y
  | _, _ => false
  end.

(** [a > b] *)
Definition Num_gt (a b : Num) : bool := negb (Num_le a b).

(** [Math.max(a, b)] *)
Definition Num_max (a b : Num) : Num := if Num_le a b then b else a.

(** [Math.min(a, b)] *)
Definition Num_min (a b : Num) : Num := if Num_le a b then a else b.

(** The loop [for (let m of moves)] of [minimax]; [rec alpha beta] is the
    recursive call [minimax(depth+1, !isMax, bot, human, alpha, beta, limit)]. *)
Fixpoint minimax_loop (rec : Num → Num → M Num) (isMax : bool) (p : Player)
  (moves : list Move) (bestScore alpha beta : Num) : M Num :=
  match moves with
  | [] => mret bestScore
  | m :: rest =>
      applyMove m p ;;
      score ← rec alpha beta;
      undoMoveGeneric m p ;;
      let bestScore' :=
        if isMax then Num_max bestScore score else Num_min bestScore score in
      let alpha' := if isMax then Num_max alpha score else alpha in
      let beta' := if isMax then beta else Num_min beta score in
      if Num_le beta' alpha' then mret bestScore'              (* break *)
      else minimax_loop rec isMax p rest bestScore' alpha' beta'
  end.

(** [minimax] with the depth of the recursion bounded by [fuel]; out of fuel
    it gives [None]. *)
Fixpoint minimax_fuel (fuel : nat) (depth : Z) (isMax : bool)
  (bot human : Player) (alpha beta : Num) (limit : Z) : M Num :=
  match fuel with
  | 0%nat => λ _, None
  | S fuel' =>
      winner ← gets detectWinnerPlayer;
      if bool_decide (winner = Some bot) then mret (Int (100 - depth))
      else if bool_decide (winner = Some human) then mret (Int (-100 + depth))
      else if depth >=? limit then mret (Int 0)
      else
        let p := if isMax then bot else human in
        moves ← gets (generateAllMoves p);
        if bool_decide (moves = []) then mret (Int 0)         (* !moves.length *)
        else
          let bestScore := if isMax then NegInf else PosInf in
          minimax_loop
            (λ a b, minimax_fuel fuel' (depth + 1) (negb isMax) bot human a b limit)
            isMax p moves bestScore alpha beta
  end.

(** A call at [depth] recurses at most down to [limit]; one more unit of
    fuel than that distance is enough (see [minimax_fuel_enough]). *)
Definition minimax (depth : Z) (isMax : bool) (bot human : Player)
  (alpha beta : Num) (limit : Z) : M Num :=
  minimax_fuel (S (Z.to_nat (limit - depth))) depth isMax bot human alpha beta limit.

(** The loop of [minimaxBestMove]. *)
Fixpoint minimaxBestMove_loop (bot opponent : Player) (depthLimit : Z)
  (moves : list Move) (bestScore : Num) (bestMove : option Move)
  : M (option Move) :=
  match moves with
  | [] => mret bestMove
  | m :: rest =>
      applyMove m bot ;;
      score ← minimax 1 false bot opponent NegInf PosInf depthLimit;
      undoMoveGeneric m bot ;;
      if Num_gt score bestScore
      then minimaxBestMove_loop bot opponent depthLimit rest score (Some m)
      else minimaxBestMove_loop bot opponent depthLimit rest bestScore bestMove
  end.

Definition minimaxBestMove (bot : Player) : M (option Move) :=
  let opponent := opponentOf bot in
  moves ← gets (generateAllMoves bot);
  let depthLimit := 4 in
  minimaxBestMove_loop bot opponent depthLimit moves NegInf None.

(** ** Sections 7, 8 and 12 of the script: the turn controller *)

(** What [endGame(msg)] was called with: [`${currentPlayer} ชนะ!`] (a
    player wins), ["เสมอ!"] (draw) or [`🤖 บอท (${difficulty}) ชนะ!`]
    (the bot wins). *)
Inductive EndMsg :=
  | msgWins (p : Player)
  | msgDraw
  | msgBotWins (difficulty : string).

(** The globals of the script. [ended] records the call of [endGame] (which
    shows the message and switches the cells' pointer events off);
    [botTimers] counts the calls [setTimeout(botMove, 600)]. *)
Record Game := mkGame {
  state : State;
  mode : string;
  difficulty : string;
  currentPlayer : Player;
  selectedSize : option Size;
  selectedFrom : option Cell;
  ended : option EndMsg;
  botTimers : nat
}.

Definition set_state (g : Game) (s : State) : Game :=
  mkGame s (mode g) (difficulty g) (currentPlayer g) (selectedSize g)
    (selectedFrom g) (ended g) (botTimers g).

(** [cancelSelectAll()] *)
Definition cancelSelectAll (g : Game) : Game :=
  mkGame (state g) (mode g) (difficulty g) (currentPlayer g) None None
    (ended g) (botTimers g).

(** [switchTurn()] *)
Definition switchTurn (g : Game) : Game :=
  let next := if bool_decide (currentPlayer g = X) then O else X in
  cancelSelectAll
    (mkGame (state g) (mode g) (difficulty g) next (selectedSize g)
       (selectedFrom g) (ended g) (botTimers g)).

(** [endGame(msg)] *)
Definition endGame (msg : EndMsg) (g : Game) : Game :=
  mkGame (state g) (mode g) (difficulty g) (currentPlayer g) (selectedSize g)
    (selectedFrom g) (Some msg) (botTimers g).

(** The common tail of the two move branches of [handleCellClick]:
    [if (checkWinner()) return endGame(...); switchTurn();
     if (mode === "1p" && currentPlayer === "O") setTimeout(botMove, 600);] *)
Definition afterHumanMove (g : Game) : Game :=
  if checkWinner (state g) then endGame (msgWins (currentPlayer g)) g
  else
    let g' := switchTurn g in
    if bool_decide (mode g' = "1p"%string) && bool_decide (currentPlayer g' = O)
    then mkGame (state g') (mode g') (difficulty g') (currentPlayer g')
           (selectedSize g') (selectedFrom g') (ended g') (S (botTimers g'))
    else g'.

Definition handleCellClick (index : Cell) (g : Game) : Game :=
  if bool_decide (selectedFrom g = Some index) then cancelSelectAll g
  else
    let b := board (state g) in
    let ownTop :=
      match topAt b index with
      | Some t => bool_decide (player t = currentPlayer g)
      | None => false
      end in
    if ownTop then
      mkGame (state g) (mode g) (difficulty g) (currentPlayer g) None
        (Some index) (ended g) (botTimers g)
    else
      match selectedFrom g with
      | Some from =>
          match pop (b !!! from) with
          | (None, _) => g                                 (* !movingPiece *)
          | (Some movingPiece, rest) =>
              if negb (canPlace index (currentPlayer g) (size movingPiece)
                         true (state g))
              then g
              else
                let b1 := vinsert from rest b in
                let b2 := vinsert index (push (b1 !!! index) movingPiece) b1 in
                afterHumanMove
                  (mkGame (mkState b2 (piecesLeft (state g))) (mode g)
                     (difficulty g) (currentPlayer g) (selectedSize g) None
                     (ended g) (botTimers g))
          end
      | None =>
          match selectedSize g with
          | Some sz =>
              if negb (canPlace index (currentPlayer g) sz false (state g))
              then g
              else
                let p := currentPlayer g in
                let pl := piecesLeft (state g) in
                let b2 := vinsert index (push (b !!! index) (mkPiece p sz)) b in
                afterHumanMove
                  (set_state g
                     (mkState b2 (left_set pl p sz (left_get pl p sz - 1))))
          | None => g
          end
      end.

(** [moves[Math.floor(Math.random()*moves.length)]]: [rnd] stands for the
    random draw; every index below [moves.length] can come out. *)
Definition randomMove (rnd : nat) (moves : list Move) : option Move :=
  moves !! (rnd `mod` length moves)%nat.

(** [a || b]: [b] is only evaluated when [a] is [null]. *)
Definition orElse (a b : M (option Move)) : M (option Move) :=
  r ← a;
  match r with
  | Some m => mret (Some m)
  | None => b
  end.

(** The conditional expression that [botMove] assigns to [move]. *)
Definition botMove_select (difficulty : string) (rnd : nat) (bot : Player)
  (moves : list Move) : M (option Move) :=
  if bool_decide (difficulty = "easy"%string) then
    mret (randomMove rnd moves)
  else if bool_decide (difficulty = "medium"%string) then
    orElse (findWinningMoveGeneric bot)
      (orElse (findBlockingMoveGeneric bot) (mret (randomMove rnd moves)))
  else if bool_decide (difficulty = "hard"%string) then
    orElse (findWinningMoveGeneric bot)
      (orElse (findBlockingMoveGeneric bot) (mret (randomMove rnd moves)))
  else
    orElse (minimaxBestMove bot) (mret (randomMove rnd moves)).

(** [botMove()], run by the timer. [None] stands for a failure of one of
    the state computations (or of reading [m.type] off [undefined]). *)
Definition botMove (rnd : nat) (g : Game) : option Game :=
  let bot := O in
  let moves := generateAllMoves bot (state g) in
  if bool_decide (moves = []) then Some (endGame msgDraw g)
  else
    match botMove_select (difficulty g) rnd bot moves (state g) with
    | Some (Some m, s1) =>
        match applyMove m bot s1 with
        | Some (_, s2) =>
            let g2 := set_state g s2 in
            if checkWinner s2 then Some (endGame (msgBotWins (difficulty g)) g2)
            else Some (switchTurn g2)
        | None => None
        end
    | _ => None
    end.

(** * Notions of the specification *)

(** The rank of a size: its position in [sizeOrder]. *)
Definition rank (sz : Size) : Z := indexOf sizeOrder sz.

(** The rank of the top piece of a cell, -1 for an empty cell. *)
Definition topRank (b : Board) (i : Cell) : Z :=
  match topAt b i with
  | Some t => rank (size t)
  | None => -1
  end.

(** The cell with number [n] (row-major: row [n / 3], column [n mod 3]). *)
Definition cellOf (n : nat) : Cell := nth n cells 0%fin.

(** The eight lines of the 3x3 grid as the specification lists them. *)
Definition rows : list Line :=
  (λ r, (cellOf (3 * r), cellOf (3 * r + 1), cellOf (3 * r + 2))) <$> [0; 1; 2]%nat.

Definition columns : list Line :=
  (λ c, (cellOf c, cellOf (c + 3), cellOf (c + 6))) <$> [0; 1; 2]%nat.

Definition diagonals : list Line :=
  [ (cellOf 0, cellOf 4, cellOf 8); (cellOf 2, cellOf 4, cellOf 6) ].

Definition lines8 : list Line := rows ++ columns ++ diagonals.

(** A line is won: its three cells are non-empty and the owners of the three
    top pieces are pairwise equal. *)
Definition lineWon (b : Board) (l : Line) : Prop :=
  let '(c1, c2, c3) := l in
  ∃ A B C,
    topAt b c1 = Some A ∧ topAt b c2 = Some B ∧ topAt b c3 = Some C ∧
    player A = player B ∧ player B = player C ∧ player A = player C.

(** A legal move of player [p]: a placement that [canPlace] accepts, or the
    relocation of a top piece of [p] (whose size the move carries) to a cell
    where [canPlace] accepts it as a relocation. *)
Definition legal (s : State) (p : Player) (m : Move) : bool :=
  match m with
  | place index sz => canPlace index p sz false s
  | move from to sz =>
      match topAt (board s) from with
      | Some t =>
          bool_decide (player t = p) && bool_decide (size t = sz)
          && canPlace to p sz true s
      | None => false
      end
  end.

(** The states of play: the initial state and what legal moves of either
    player make of it. *)
Inductive reachable : State → Prop :=
  | reachable_init : reachable initialState
  | reachable_step s p m s' :
      reachable s → legal s p m = true → applyMove m p s = Some (tt, s') →
      reachable s'.

(** The sizes of a stack strictly increase from the bottom to the top. *)
Definition increasing (st : Stack) : Prop :=
  ∀ (i j : nat) (a b : Piece),
    (i < j)%nat → st !! i = Some a → st !! j = Some b →
    rank (size a) < rank (size b).

(** The enumeration order of the specification: placements by size, each
    over the cells 0..8, then relocations by source cell, each over the
    destination cells 0..8 without the source. *)
Definition placements_spec (p : Player) (s : State) : list Move :=
  sz ← [small; medium; large];
  i ← cells;
  if (0 <? left_get (piecesLeft s) p sz) && canPlace i p sz false s
  then [place i sz] else [].

Definition relocations_spec (p : Player) (s : State) : list Move :=
  from ← cells;
  to ← cells;
  match topAt (board s) from with
  | Some t =>
      if bool_decide (player t = p) && bool_decide (to ≠ from)
         && canPlace to p (size t) true s
      then [move from to (size t)] else []
  | None => []
  end.

Definition generateMoves_spec (p : Player) (s : State) : list Move :=
  placements_spec p s ++ relocations_spec p s.

(** A move can be carried out: a relocation needs a piece on its source. *)
Definition applicable (s : State) (m : Move) : Prop :=
  match m with
  | place _ _ => True
  | move from _ _ => board s !!! from ≠ []
  end.

(** The state after [applyMove(m, p)]. *)
Definition after (m : Move) (p : Player) (s : State) : option State :=
  snd <$> applyMove m p s.

(** [m] wins at once for [p]: [checkWinner()] holds after it. *)
Definition winsAfter (p : Player) (s : State) (m : Move) : bool :=
  match after m p s with
  | Some s1 => checkWinner s1
  | None => false
  end.

(** The first winning move of [p] in generation order, if there is one. *)
Definition winningMove_spec (p : Player) (s : State) : option Move :=
  List.find (winsAfter p s) (generateAllMoves p s).

(** [m] of [bot] leaves the opponent without a move that wins at once. *)
Definition blocksAfter (bot : Player) (s : State) (m : Move) : bool :=
  match after m bot s with
  | Some s1 =>
      match winningMove_spec (opponentOf bot) s1 with
      | None => true
      | Some _ => false
      end
  | None => false
  end.

(** When the opponent threatens to win at once: the first move of [bot] in
    generation order that removes every such threat. *)
Definition blockingMove_spec (bot : Player) (s : State) : option Move :=
  match winningMove_spec (opponentOf bot) s with
  | None => None
  | Some _ => List.find (blocksAfter bot s) (generateAllMoves bot s)
  end.

(** Win, else block, else the drawn move. *)
Definition strategy_spec (rnd : nat) (bot : Player) (s : State)
  : option Move :=
  match winningMove_spec bot s with
  | Some m => Some m
  | None =>
      match blockingMove_spec bot s with
      | Some m => Some m
      | None => randomMove rnd (generateAllMoves bot s)
      end
  end.

(** The one-ply-ahead evaluation of a candidate [m] of the bot: the value of
    [minimax(1, false, bot, opponent, -Infinity, Infinity, 4)] in the state
    after [m]. *)
Definition onePly (bot : Player) (s : State) (m : Move) : option Num :=
  match applyMove m bot s with
  | Some (_, s1) =>
      fst <$> minimax 1 false bot (opponentOf bot) NegInf PosInf 4 s1
  | None => None
  end.

(** The selection recorded by a click is a cell whose top piece belongs to
    the player to move (that is how [handleCellClick] sets it). *)
Definition selection_ok (g : Game) : Prop :=
  ∀ from, selectedFrom g = Some from →
    ∃ t, topAt (board (state g)) from = Some t ∧ player t = currentPlayer g.

(** The number of large pieces of [p] in a stack, and on the board. *)
Definition largesIn (p : Player) (st : Stack) : nat :=
  length (filter (λ pc, pc = mkPiece p large) st).

Definition largesOnBoard (p : Player) (b : Board) : nat :=
  sum_list_with (λ i, largesIn p (b !!! i)) cells.

(** The accounting of the large pieces: each player's two large pieces are
    in the inventory or on the board. *)
Definition larges_accounted (s : State) : Prop :=
  ∀ p, 0 <= left_get (piecesLeft s) p large ∧
       Z.of_nat (largesOnBoard p (board s)) + left_get (piecesLeft s) p large = 2.

(** ** Sample positions *)

(** After [X] has placed a small piece on the centre cell. *)
Definition centreState : State :=
  mkState
    (vinsert 4%fin [mkPiece X small] (vreplicate 9 []))
    (mkPiecesLeft (mkCounts 1 2 2) initialCounts).

(** The top row shows three pieces of [who]. *)
Definition topRowState (who : Player) : State :=
  mkState
    (vinsert 0%fin [mkPiece who small]
       (vinsert 1%fin [mkPiece who medium]
          (vinsert 2%fin [mkPiece who large] (vreplicate 9 []))))
    (mkPiecesLeft initialCounts initialCounts).

(** [O], to move, shows two pieces of the top row and can complete it. *)
Definition threatState : State :=
  mkState
    (vinsert 0%fin [mkPiece O small]
       (vinsert 1%fin [mkPiece O medium]
          (vinsert 4%fin [mkPiece X small]
             (vinsert 6%fin [mkPiece X small]
                (vinsert 8%fin [mkPiece X medium] (vreplicate 9 []))))))
    (mkPiecesLeft (mkCounts 0 1 2) (mkCounts 1 1 2)).

(** Cell 0 holds a small piece of [X] under a medium piece of [O]. *)
Definition coveredState : State :=
  mkState
    (vinsert 0%fin [mkPiece X small; mkPiece O medium] (vreplicate 9 []))
    (mkPiecesLeft (mkCounts 1 2 2) (mkCounts 2 1 2)).

(** A position without a winner in which neither player has a legal move:
    every cell shows a large piece and no line has one owner,
<<
      X O X
      X O O
      O X X
>>
    (a value of the state type; play from the initial state has only four
    large pieces). *)
Definition stuckBoard : Board :=
  let x := [mkPiece X large] in
  let o := [mkPiece O large] in
  [# x; o; x; x; o; o; o; x; x].

Definition stuckState : State :=
  mkState stuckBoard (mkPiecesLeft (mkCounts 0 0 0) (mkCounts 0 0 0)).

(** The stuck position with [toMove] to move, in a game against the bot;
    [sel] and [from] are the size and the cell selected so far. *)
Definition stuckGame (toMove : Player) (sel : option Size)
  (from : option Cell) : Game :=
  mkGame stuckState "1p" "easy" toMove sel from None 0.

(** * The rest of the script: the other handlers, the page load, events *)

(** What [renderBoard] draws: in each cell a piece element with the classes
    of the top piece of the stack, or nothing for an empty stack. *)
Definition renderBoard (b : Board) : vec (option Piece) 9 := vmap top b.

(** The click handler of a size button; [sz] is the button's
    [dataset.size] (the page, which is not among the sources, is taken to
    name the three sizes). *)
Definition pieceButtonClick (sz : Size) (g : Game) : Game :=
  if bool_decide (selectedSize g = Some sz) then cancelSelectAll g
  else
    mkGame (state g) (mode g) (difficulty g) (currentPlayer g) (Some sz) None
      (ended g) (botTimers g).

(** The [change] handlers of the two selectors. *)
Definition modeChange (v : string) (g : Game) : Game :=
  mkGame (state g) v (difficulty g) (currentPlayer g) (selectedSize g)
    (selectedFrom g) (ended g) (botTimers g).

Definition difficultyChange (v : string) (g : Game) : Game :=
  mkGame (state g) (mode g) v (currentPlayer g) (selectedSize g)
    (selectedFrom g) (ended g) (botTimers g).

(** The click handler of the reset button: a new board and new
    inventories, [X] to move, nothing selected. [createBoard()] makes new
    cells, whose pointer events are on again; a pending bot timer is not
    cleared. *)
Definition resetClick (g : Game) : Game :=
  mkGame initialState (mode g) (difficulty g) X None None None (botTimers g).

(** [if (params.get(k))]: the parameter is there and not empty. *)
Definition truthy (v : option string) : bool :=
  match v with
  | Some w => negb (bool_decide (w = ""%string))
  | None => false
  end.

(** The globals after the page has loaded, with the URL parameters
    [mode], [difficulty] and [player] ([None] for a missing one). *)
Definition pageLoad (qMode qDiff qPlayer : option string) : Game :=
  let mode := if truthy qMode then default "2p"%string qMode else "2p"%string in
  let difficulty :=
    if truthy qDiff then default "easy"%string qDiff else "easy"%string in
  let currentPlayer :=
    if truthy qPlayer
    then (if bool_decide (qPlayer = Some "P2"%string) then O else X)
    else X in
  mkGame initialState mode difficulty currentPlayer None None None 0.

(** The events of the page. *)
Inductive Event :=
  | cellClicked (index : Cell)
  | pieceButtonClicked (sz : Size)
  | resetClicked
  | modeChanged (v : string)
  | difficultyChanged (v : string)
  | botTimerFired (rnd : nat).

(** One event. [None]: the event cannot happen (a click on a cell while
    [endGame] has switched the cells' pointer events off, a timer that was
    never set), or its handler fails. *)
Definition dispatch (e : Event) (g : Game) : option Game :=
  match e with
  | cellClicked index =>
      match ended g with
      | None => Some (handleCellClick index g)
      | Some _ => None
      end
  | pieceButtonClicked sz => Some (pieceButtonClick sz g)
  | resetClicked => Some (resetClick g)
  | modeChanged v => Some (modeChange v g)
  | difficultyChanged v => Some (difficultyChange v g)
  | botTimerFired rnd =>
      match botTimers g with
      | 0%nat => None
      | S n =>
          botMove rnd
            (mkGame (state g) (mode g) (difficulty g) (currentPlayer g)
               (selectedSize g) (selectedFrom g) (ended g) n)
      end
  end.

(** A sequence of events, one after the other. *)
Fixpoint run (es : list Event) (g : Game) : option Game :=
  match es with
  | [] => Some g
  | e :: rest =>
      match dispatch e g with
      | Some g' => run rest g'
      | None => None
      end
  end.

(** * Further notions *)

(** The number of pieces of [p] of size [sz] in a stack, and on the board. *)
Definition piecesIn (p : Player) (sz : Size) (st : Stack) : nat :=
  length (filter (λ pc, pc = mkPiece p sz) st).

Definition piecesOnBoard (p : Player) (sz : Size) (b : Board) : nat :=
  sum_list_with (λ i, piecesIn p sz (b !!! i)) cells.

(** The destination cell of a move. *)
Definition destination (m : Move) : Cell :=
  match m with
  | place index _ => index
  | move _ to _ => to
  end.

(** The cells a move touches. *)
Definition touches (m : Move) (i : Cell) : Prop :=
  match m with
  | place index _ => i = index
  | move from to _ => i = from ∨ i = to
  end.

(** The other player. *)
Definition other (p : Player) : Player :=
  match p with X => O | O => X end.

(** The greatest and the least element of a list of scores (0 for the
    empty list, which the search never meets). *)
Definition maximum (l : list Z) : Z :=
  match l with
  | [] => 0
  | x :: r => fold_left Z.max r x
  end.

Definition minimum (l : list Z) : Z :=
  match l with
  | [] => 0
  | x :: r => fold_left Z.min r x
  end.

(** Minimax without pruning: the value of a position at [depth], searched
    down to [limit], with the base cases of [minimax]. [n] bounds the depth
    of the recursion as the fuel of [minimax_fuel] does. *)
Fixpoint exactValue (n : nat) (depth : Z) (isMax : bool) (bot human : Player)
  (limit : Z) (s : State) : Z :=
  match n with
  | 0%nat => 0
  | S n' =>
      let winner := detectWinnerPlayer s in
      if bool_decide (winner = Some bot) then 100 - depth
      else if bool_decide (winner = Some human) then -100 + depth
      else if depth >=? limit then 0
      else
        let p := if isMax then bot else human in
        let moves := generateAllMoves p s in
        if bool_decide (moves = []) then 0
        else
          let values :=
            (λ m, match after m p s with
                  | Some s1 =>
                      exactValue n' (depth + 1) (negb isMax) bot human limit s1
                  | None => 0
                  end) <$> moves in
          if isMax then maximum values else minimum values
  end.

(** The value of the position after the bot's candidate [m], by minimax
    without pruning: depth 1, the human to move, limit 4. *)
Definition exactOnePly (bot : Player) (s : State) (m : Move) : Z :=
  match after m bot s with
  | Some s1 => exactValue 4 1 false bot (opponentOf bot) 4 s1
  | None => 0
  end.

(** What a search with the window from [alpha] to [beta] tells about the
    value [e] without pruning when it returns [v]: at or below [alpha],
    [v] is an upper bound of [e]; at or above [beta], a lower bound; strictly
    inside the window, [v] is [e]. *)
Definition failSoft (alpha beta : Num) (v e : Z) : Prop :=
  (Num_le (Int v) alpha = true → e <= v) ∧
  (Num_le beta (Int v) = true → v <= e) ∧
  (Num_le (Int v) alpha = false → Num_le beta (Int v) = false → e = v).

(** At most one of the two selections is set. *)
Definition selection_exclusive (g : Game) : Prop :=
  selectedSize g = None ∨ selectedFrom g = None.

(** What every sequence of events keeps: the position is one of play, the
    source selection (while the game is on) is a cell showing a piece of
    the player to move, at most one selection is set, and no draw has been
    declared. *)
Definition game_ok (g : Game) : Prop :=
  reachable (state g) ∧
  (ended g = None → selection_ok g) ∧
  selection_exclusive g ∧
  ended g ≠ Some msgDraw.

(** A game against the bot on level "hard", just loaded, and the same
    after the size button "small" has been pressed. *)
Definition startGame : Game := pageLoad (Some "1p") (Some "hard") None.

Definition readyGame : Game := pieceButtonClick small startGame.

(** The three tops of a line belong to [p]. *)
Definition ownsLine (p : Player) (b : Board) (l : Line) : bool :=
  let '(c1, c2, c3) := l in
  match topAt b c1, topAt b c2, topAt b c3 with
  | Some A, Some B, Some C =>
      bool_decide (player A = p) && bool_decide (player B = p)
      && bool_decide (player C = p)
  | _, _, _ => false
  end.

(** A game of two players in which [X] covers the small piece of [O] on
    cell 1, [O] takes cells 0 and 2, and [X] then moves the covering piece
    away to cell 5. *)
Definition uncoveringRun : list Event :=
  [ pieceButtonClicked small; cellClicked 8%fin;
    pieceButtonClicked small; cellClicked 1%fin;
    pieceButtonClicked medium; cellClicked 1%fin;
    pieceButtonClicked small; cellClicked 0%fin;
    pieceButtonClicked small; cellClicked 3%fin;
    pieceButtonClicked medium; cellClicked 2%fin;
    cellClicked 1%fin; cellClicked 5%fin ].

(** A move that wins for the mover, the winning move of the bot in the
    words of the specification: after it one of the eight lines shows
    three pieces of the mover [p] (where [winsAfter] asks [checkWinner],
    which does not tell whose line it is). *)
Definition winsOwnLine (p : Player) (s : State) (m : Move) : bool :=
  match after m p s with
  | Some s1 => existsb (ownsLine p (board s1)) lines8
  | None => false
  end.

(** A blocking move in the same words: a move of [bot] after which no
    move of the opponent gives the opponent a line of its own. *)
Definition blocksOwnLine (bot : Player) (s : State) (m : Move) : bool :=
  match after m bot s with
  | Some s1 =>
      forallb (λ m', negb (winsOwnLine (opponentOf bot) s1 m'))
        (generateAllMoves (opponentOf bot) s1)
  | None => false
  end.

(** A game against the bot: [X] places a small piece on cell 0, the bot
    (drawing index 8) covers it with a medium piece; [X] places a small
    piece on cell 3, the bot (drawing index 3) places a small piece on
    cell 5; [X] places a medium piece on cell 6. *)
Definition handoverRun : list Event :=
  [ pieceButtonClicked small; cellClicked 0%fin; botTimerFired 8;
    pieceButtonClicked small; cellClicked 3%fin; botTimerFired 3;
    pieceButtonClicked medium; cellClicked 6%fin ].

(** The position after [handoverRun],
<<
      O(x) .  .
      x    .  o
      X    .  .
>>
    with the bot's medium piece on cell 0 over the small piece of [X]. *)
Definition handoverState : State :=
  mkState
    [# [mkPiece X small; mkPiece O medium]; []; [];
       [mkPiece X small]; []; [mkPiece O small];
       [mkPiece X medium]; []; [] ]
    (mkPiecesLeft (mkCounts 0 1 2) (mkCounts 1 1 2)).

(** The game after [handoverRun] on level [d]: the bot is to move and its
    timer is pending. *)
Definition handoverGame (d : string) : Game :=
  mkGame handoverState "1p" d O None None None 1.

(** * Properties *)

(** Case analysis on a cell: the nine cases, each closed by [tac]. *)
Tactic Notation "cell_cases" ident(i) "by" tactic3(tac) :=
  repeat (inv_fin i; [tac|intros i]); inv_fin i.

(** ** Ranks and the placement rule *)

Lemma rank_values : rank small = 0 ∧ rank medium = 1 ∧ rank large = 2.
Proof. by compute. Qed.

Lemma rank_range sz : 0 <= rank sz <= 2.
Proof. destruct sz; by compute. Qed.

Lemma rank_inj a b : rank a = rank b → a = b.
Proof. destruct a, b; compute; congruence. Qed.

Lemma canPlace_topRank index p sz isMove s :
  canPlace index p sz isMove s =
    negb (rank sz <=? topRank (board s) index)
    && (isMove || negb (left_get (piecesLeft s) p sz <=? 0)).
Proof.
  unfold canPlace, topRank, topAt, rank.
  destruct (top (board s !!! index)) as [t|];
    destruct (_ <=? _); destruct isMove; simpl;
    try destruct (_ <=? 0); reflexivity.
Qed.

(** C2: [canPlace] accepts exactly when the rank of the new size (0, 1, 2
    for small, medium, large) is strictly above the rank of the top piece of
    the cell (-1 for an empty cell) and, for a placement from the inventory,
    the player's count for the size is positive; for a relocation the answer
    does not depend on the inventory at all. *)
Theorem canPlace_iff :
  (rank small = 0 ∧ rank medium = 1 ∧ rank large = 2) ∧
  (∀ b i, topAt b i = None → topRank b i = -1) ∧
  (∀ index p sz isMove s,
     canPlace index p sz isMove s = true ↔
       topRank (board s) index < rank sz ∧
       (isMove = false → 0 < left_get (piecesLeft s) p sz)) ∧
  (∀ index p q sz b pl pl',
     canPlace index p sz true (mkState b pl)
     = canPlace index q sz true (mkState b pl')).
Proof.
  split; [exact rank_values|].
  split; [by intros b i H; unfold topRank; rewrite H|].
  split.
  - intros index p sz isMove s. rewrite canPlace_topRank.
    rewrite andb_true_iff, negb_true_iff, Z.leb_gt, orb_true_iff,
      negb_true_iff, Z.leb_gt.
    destruct isMove; intuition (try discriminate; auto).
  - intros. by rewrite !canPlace_topRank.
Qed.

(** ** The win test *)

Lemma wins_lines8 : checkWinner_wins = lines8.
Proof. reflexivity. Qed.

Lemma wins_same : detectWinnerPlayer_wins = checkWinner_wins.
Proof. reflexivity. Qed.

Lemma sameOwner_lineWon b c1 c2 c3 :
  sameOwner (topAt b c1) (topAt b c2) (topAt b c3) = true ↔
  lineWon b (c1, c2, c3).
Proof.
  unfold sameOwner, lineWon. split.
  - destruct (topAt b c1) as [A|], (topAt b c2) as [B|], (topAt b c3) as [C|];
      try discriminate.
    rewrite andb_true_iff, !bool_decide_eq_true. intros [H1 H2].
    exists A, B, C. repeat split; congruence.
  - intros (A & B & C & -> & -> & -> & H1 & H2 & _).
    by rewrite andb_true_iff, !bool_decide_eq_true.
Qed.

Lemma checkWinner_scan_iff b wins :
  checkWinner_scan b wins = true ↔ ∃ l, l ∈ wins ∧ lineWon b l.
Proof.
  induction wins as [|[[c1 c2] c3] rest IH]; simpl.
  - split; [discriminate|]. intros (l & Hl & _). by apply elem_of_nil in Hl.
  - destruct (sameOwner _ _ _) eqn:E.
    + split; [|done]. intros _. exists (c1, c2, c3). split; [left|].
      by apply sameOwner_lineWon.
    + rewrite IH. split.
      * intros (l & Hl & Hw). exists l. split; [by right|done].
      * intros (l & Hl & Hw). apply elem_of_cons in Hl as [->|Hl].
        -- apply sameOwner_lineWon in Hw. congruence.
        -- by exists l.
Qed.

(** The two scans agree line by line, on every list of lines. *)
Lemma scans_agree b wins :
  checkWinner_scan b wins = bool_decide (is_Some (detectWinnerPlayer_scan b wins)).
Proof.
  induction wins as [|[[c1 c2] c3] rest IH]; simpl.
  - reflexivity.
  - destruct (sameOwner _ _ _) eqn:E; [|done].
    symmetry. apply bool_decide_eq_true.
    unfold sameOwner in E. destruct (topAt b c1); [by eexists|done].
Qed.

Lemma detect_is_Some_check s :
  is_Some (detectWinnerPlayer s) ↔ checkWinner s = true.
Proof.
  unfold detectWinnerPlayer, checkWinner. rewrite wins_same, scans_agree.
  by rewrite bool_decide_eq_true.
Qed.

(** The winner reported is the owner of the three tops of a won line. *)
Lemma detect_scan_owner b wins p :
  detectWinnerPlayer_scan b wins = Some p →
  ∃ c1 c2 c3 A B C, (c1, c2, c3) ∈ wins ∧
    topAt b c1 = Some A ∧ topAt b c2 = Some B ∧ topAt b c3 = Some C ∧
    player A = p ∧ player B = p ∧ player C = p.
Proof.
  induction wins as [|[[c1 c2] c3] rest IH]; simpl; [discriminate|].
  destruct (sameOwner _ _ _) eqn:E.
  - apply sameOwner_lineWon in E as (A & B & C & HA & HB & HC & H1 & H2 & H3).
    rewrite HA. simpl. intros [= <-].
    exists c1, c2, c3, A, B, C. repeat split; try done; [left|congruence..].
  - intros H. destruct (IH H) as (d1 & d2 & d3 & A & B & C & Hin & Hrest).
    exists d1, d2, d3, A, B, C. split; [by right|done].
Qed.

(** C5: the win oracle (both [checkWinner] and [detectWinnerPlayer]) reports
    a winner exactly when one of the eight lines (three rows, three columns,
    two diagonals) has three non-empty cells whose top pieces have pairwise
    equal owners; the player reported owns the three tops of such a line. *)
Theorem winner_iff_line (s : State) :
  checkWinner_wins = rows ++ columns ++ diagonals ∧
  detectWinnerPlayer_wins = rows ++ columns ++ diagonals ∧
  (checkWinner s = true ↔ ∃ l, l ∈ lines8 ∧ lineWon (board s) l) ∧
  (is_Some (detectWinnerPlayer s) ↔ ∃ l, l ∈ lines8 ∧ lineWon (board s) l) ∧
  (∀ p, detectWinnerPlayer s = Some p →
     ∃ c1 c2 c3 A B C, (c1, c2, c3) ∈ lines8 ∧
       topAt (board s) c1 = Some A ∧ topAt (board s) c2 = Some B ∧
       topAt (board s) c3 = Some C ∧
       player A = p ∧ player B = p ∧ player C = p).
Proof.
  split; [reflexivity|]. split; [reflexivity|].
  assert (Hc : checkWinner s = true ↔ ∃ l, l ∈ lines8 ∧ lineWon (board s) l).
  { unfold checkWinner. rewrite <- wins_lines8. apply checkWinner_scan_iff. }
  split; [exact Hc|]. split.
  - by rewrite detect_is_Some_check.
  - intros p H. rewrite <- wins_lines8, <- wins_same.
    by apply detect_scan_owner.
Qed.

(** C10: the boolean win check and the winner-returning win check agree on
    every board: [checkWinner] is true exactly when [detectWinnerPlayer]
    returns a player; both scan the same eight lines in the same order, and
    both stop at the first won line of the scan. *)
Theorem checkWinner_detectWinnerPlayer_agree (s : State) :
  (checkWinner s = true ↔ detectWinnerPlayer s ≠ None) ∧
  checkWinner_wins = detectWinnerPlayer_wins ∧
  (∀ pre c1 c2 c3 post,
     checkWinner_wins = pre ++ (c1, c2, c3) :: post →
     (∀ l, l ∈ pre → ¬ lineWon (board s) l) →
     lineWon (board s) (c1, c2, c3) →
     checkWinner_scan (board s) (pre ++ [(c1, c2, c3)]) = true ∧
     checkWinner_scan (board s) pre = false ∧
     detectWinnerPlayer_scan (board s) pre = None ∧
     detectWinnerPlayer s = player <$> topAt (board s) c1).
Proof.
  split; [|split; [reflexivity|]].
  - rewrite <- detect_is_Some_check, <- not_eq_None_Some. done.
  - intros pre c1 c2 c3 post Hsplit Hpre Hwon.
    assert (Hfalse : checkWinner_scan (board s) pre = false).
    { apply not_true_is_false. rewrite checkWinner_scan_iff.
      intros (l & Hl & Hw). by apply (Hpre l). }
    assert (Hnone : detectWinnerPlayer_scan (board s) pre = None).
    { rewrite scans_agree in Hfalse. apply bool_decide_eq_false in Hfalse.
      by apply eq_None_not_Some. }
    split; [|split; [done|split; [done|]]].
    + apply checkWinner_scan_iff. exists (c1, c2, c3).
      split; [|done]. apply elem_of_app. right. left.
    + unfold detectWinnerPlayer. rewrite <- wins_same in Hsplit. rewrite Hsplit.
      clear Hsplit Hfalse. induction pre as [|[[d1 d2] d3] pre IH]; simpl.
      * apply sameOwner_lineWon in Hwon. by rewrite Hwon.
      * simpl in Hnone. destruct (sameOwner _ _ _) eqn:E.
        -- apply sameOwner_lineWon in E. exfalso. apply (Hpre (d1, d2, d3)); [left|done].
        -- apply IH; [|done]. intros l Hl. apply Hpre. by right.
Qed.

(** ** Stacks and the board *)

Lemma vinsert_vinsert {A n} (i : fin n) (x y : A) (v : vec A n) :
  vinsert i x (vinsert i y v) = vinsert i x v.
Proof.
  apply vec_eq. intros j. destruct (decide (i = j)) as [->|Hne].
  - by rewrite !vlookup_insert.
  - by rewrite !vlookup_insert_ne.
Qed.

Lemma pop_push st pc : pop (push st pc) = (Some pc, st).
Proof. unfold pop, push. by rewrite last_snoc, removelast_last. Qed.

Lemma pop_nonempty st :
  st ≠ [] → ∃ pc rest, pop st = (Some pc, rest) ∧ st = push rest pc.
Proof.
  intros H. destruct (exists_last H) as (rest & pc & ->).
  exists pc, rest. split; [apply pop_push|done].
Qed.

Lemma pop_Some st pc rest : pop st = (Some pc, rest) → st = push rest pc.
Proof.
  intros H. destruct (decide (st = [])) as [->|Hne]; [discriminate|].
  destruct (pop_nonempty st Hne) as (pc' & rest' & H' & ->). congruence.
Qed.

Lemma top_push st pc : top (push st pc) = Some pc.
Proof. apply last_snoc. Qed.

Lemma left_set_get pl p sz : left_set pl p sz (left_get pl p sz) = pl.
Proof. by destruct pl as [[] []], p, sz. Qed.

Lemma left_set_set pl p sz v w :
  left_set (left_set pl p sz v) p sz w = left_set pl p sz w.
Proof. by destruct pl as [[] []], p, sz. Qed.

Lemma left_get_set pl p sz v : left_get (left_set pl p sz v) p sz = v.
Proof. by destruct pl as [[] []], p, sz. Qed.

(** ** Apply and undo *)

Lemma apply_undo m p s :
  applicable s m →
  ∃ s', applyMove m p s = Some (tt, s') ∧ undoMoveGeneric m p s' = Some (tt, s).
Proof.
  destruct s as [b pl]. destruct m as [index sz|from to sz];
    unfold applicable, applyMove, undoMoveGeneric; cbn [board piecesLeft].
  - intros _. eexists. split; [reflexivity|]. cbn [board piecesLeft].
    rewrite vlookup_insert, pop_push. cbn [snd].
    rewrite vinsert_vinsert, vlookup_insert_self.
    rewrite left_get_set, left_set_set.
    replace (left_get pl p sz - 1 + 1) with (left_get pl p sz) by lia.
    by rewrite left_set_get.
  - intros Hne. destruct (pop_nonempty _ Hne) as (mv & rest & Hpop & Hst).
    rewrite Hpop. eexists. split; [reflexivity|]. cbn [board piecesLeft].
    rewrite vlookup_insert, pop_push.
    rewrite vinsert_vinsert, vlookup_insert_self.
    rewrite vlookup_insert, vinsert_vinsert, <- Hst.
    by rewrite vlookup_insert_self.
Qed.

Lemma legal_applicable s p m : legal s p m = true → applicable s m.
Proof.
  destruct m as [index sz|from to sz]; simpl; [done|].
  unfold topAt, top. intros H E. by rewrite E in H.
Qed.

(** C1: a legal move applied and at once undone gives back the state it
    started from: the nine stacks and the counts of both players. After a
    placement the destination has the new piece on top and the player's
    count for the size is one lower (the undo pops the one and adds one to
    the other); after a relocation the top piece of the source lies on the
    destination (the undo pops it there and pushes it back on the source). *)
Theorem apply_then_undo (m : Move) (p : Player) (s : State) :
  legal s p m = true →
  ∃ s',
    applyMove m p s = Some (tt, s') ∧
    undoMoveGeneric m p s' = Some (tt, s) ∧
    match m with
    | place index sz =>
        board s' !!! index = push (board s !!! index) (mkPiece p sz) ∧
        pop (board s' !!! index) = (Some (mkPiece p sz), board s !!! index) ∧
        left_get (piecesLeft s') p sz = left_get (piecesLeft s) p sz - 1
    | move from to sz =>
        ∃ mv, from ≠ to ∧
          board s !!! from = push (board s' !!! from) mv ∧
          board s' !!! to = push (board s !!! to) mv ∧
          piecesLeft s' = piecesLeft s
    end.
Proof.
  intros Hlegal.
  destruct (apply_undo m p s (legal_applicable _ _ _ Hlegal)) as (s' & Ha & Hu).
  exists s'. split; [done|]. split; [done|].
  destruct s as [b pl]. destruct m as [index sz|from to sz];
    unfold legal, applyMove in *; cbn [board piecesLeft] in *.
  - injection Ha as <-. cbn [board piecesLeft].
    rewrite vlookup_insert, pop_push, left_get_set. done.
  - destruct (topAt b from) as [t|] eqn:Et; [|done].
    rewrite !andb_true_iff, !bool_decide_eq_true in Hlegal.
    destruct Hlegal as [[Hp Hsz] Hcan].
    assert (Hne : from ≠ to).
    { intros <-. rewrite canPlace_topRank in Hcan. cbn [board] in Hcan.
      unfold topRank in Hcan. rewrite Et, Hsz in Hcan.
      rewrite andb_true_iff, negb_true_iff, Z.leb_gt in Hcan. lia. }
    destruct (pop (b !!! from)) as [[mv|] rest] eqn:Hpop; [|done].
    injection Ha as <-. cbn [board piecesLeft]. apply pop_Some in Hpop.
    exists mv. split; [done|].
    rewrite vlookup_insert_ne, vlookup_insert by done.
    rewrite vlookup_insert, vlookup_insert_ne by done. done.
Qed.

Lemma apply_then_undo_witness :
  (legal initialState X (place 4%fin small) = true ∧
   applyMove (place 4%fin small) X initialState = Some (tt, centreState) ∧
   undoMoveGeneric (place 4%fin small) X centreState = Some (tt, initialState)) ∧
  (legal centreState X (move 4%fin 0%fin small) = true ∧
   ∃ s', applyMove (move 4%fin 0%fin small) X centreState = Some (tt, s') ∧
         undoMoveGeneric (move 4%fin 0%fin small) X s' = Some (tt, centreState)).
Proof.
  split.
  - split; [reflexivity|].
    destruct (apply_then_undo (place 4%fin small) X initialState eq_refl)
      as (s' & Ha & Hu & _).
    change (Some (tt, centreState) = Some (tt, s')) in Ha.
    injection Ha as <-. by split.
  - split; [reflexivity|].
    destruct (apply_then_undo (move 4%fin 0%fin small) X centreState eq_refl)
      as (s' & Ha & Hu & _).
    by exists s'.
Defined.

(** ** The move generator *)

Lemma fold_left_bind {A B} (step : list B → A → list B) (f : A → list B) :
  (∀ acc x, step acc x = acc ++ f x) →
  ∀ l acc, fold_left step l acc = acc ++ (l ≫= f).
Proof.
  intros Hstep l. induction l as [|x l IH]; intros acc; simpl.
  - by rewrite app_nil_r.
  - by rewrite Hstep, IH, app_assoc.
Qed.

Lemma generate_places_bind p s sz acc :
  generate_places p s sz acc =
  acc ++ (cells ≫= λ i, if canPlace i p sz false s then [place i sz] else []).
Proof.
  unfold generate_places. apply fold_left_bind.
  intros acc' i. destruct (canPlace _ _ _ _ _); [done|by rewrite app_nil_r].
Qed.

Lemma generate_relocations_bind p s from t acc :
  generate_relocations p s from t acc =
  acc ++ (cells ≫= λ to,
            if bool_decide (to ≠ from) && canPlace to p (size t) true s
            then [move from to (size t)] else []).
Proof.
  unfold generate_relocations. apply fold_left_bind.
  intros acc' i. destruct (_ && _); [done|by rewrite app_nil_r].
Qed.

Lemma generateAllMoves_spec_eq p s : generateAllMoves p s = generateMoves_spec p s.
Proof.
  unfold generateAllMoves, generateMoves_spec.
  rewrite (fold_left_bind _
    (λ from, to ← cells;
       match topAt (board s) from with
       | Some t =>
           if bool_decide (player t = p) && bool_decide (to ≠ from)
              && canPlace to p (size t) true s
           then [move from to (size t)] else []
       | None => []
       end)).
  - f_equal. rewrite (fold_left_bind _
      (λ sz, i ← cells;
         if (0 <? left_get (piecesLeft s) p sz) && canPlace i p sz false s
         then [place i sz] else [])); [done|].
    intros acc sz. destruct (0 <? _).
    + by rewrite generate_places_bind.
    + exact (eq_sym (app_nil_r acc)).
  - intros acc from. unfold topAt. destruct (top _) as [t|].
    + destruct (decide (player t = p)) as [Hp|Hp].
      * rewrite (bool_decide_eq_false_2 (player t ≠ p)) by auto.
        rewrite generate_relocations_bind.
        by rewrite (bool_decide_eq_true_2 (player t = p)).
      * rewrite (bool_decide_eq_true_2 (player t ≠ p)) by done.
        rewrite (bool_decide_eq_false_2 (player t = p)) by done.
        exact (eq_sym (app_nil_r acc)).
    + exact (eq_sym (app_nil_r acc)).
Qed.

Lemma elem_of_cells (i : Cell) : i ∈ cells.
Proof.
  unfold cells. cell_cases i by (repeat constructor).
Qed.

Lemma elem_of_placements p s m :
  m ∈ placements_spec p s ↔
  ∃ i sz, m = place i sz ∧ 0 < left_get (piecesLeft s) p sz ∧
          canPlace i p sz false s = true.
Proof.
  unfold placements_spec. rewrite list_elem_of_bind. split.
  - intros (sz & Hm & _). apply list_elem_of_bind in Hm as (i & Hm & _).
    destruct (0 <? _) eqn:E1; [|by apply elem_of_nil in Hm].
    destruct (canPlace _ _ _ _ _) eqn:E2; [|by apply elem_of_nil in Hm].
    apply list_elem_of_singleton in Hm as ->.
    exists i, sz. by rewrite <- Z.ltb_lt.
  - intros (i & sz & -> & Hl & Hc). exists sz. split; [|destruct sz; repeat constructor].
    apply list_elem_of_bind. exists i. split; [|apply elem_of_cells].
    apply Z.ltb_lt in Hl. rewrite Hl, Hc. constructor.
Qed.

Lemma elem_of_relocations p s m :
  m ∈ relocations_spec p s ↔
  ∃ from to t, m = move from to (size t) ∧
    topAt (board s) from = Some t ∧ player t = p ∧ to ≠ from ∧
    canPlace to p (size t) true s = true.
Proof.
  unfold relocations_spec. rewrite list_elem_of_bind. split.
  - intros (from & Hm & _). apply list_elem_of_bind in Hm as (to & Hm & _).
    destruct (topAt _ _) as [t|] eqn:Et; [|by apply elem_of_nil in Hm].
    destruct (_ && _) eqn:E; [|by apply elem_of_nil in Hm].
    apply list_elem_of_singleton in Hm as ->.
    rewrite !andb_true_iff, !bool_decide_eq_true in E.
    destruct E as [[Hp Hne] Hc]. by exists from, to, t.
  - intros (from & to & t & -> & Et & Hp & Hne & Hc).
    exists from. split; [|apply elem_of_cells].
    apply list_elem_of_bind. exists to. split; [|apply elem_of_cells].
    rewrite Et, Hc.
    rewrite (bool_decide_eq_true_2 _ Hp), (bool_decide_eq_true_2 _ Hne).
    constructor.
Qed.

Lemma generated_legal p s m : m ∈ generateAllMoves p s → legal s p m = true.
Proof.
  rewrite generateAllMoves_spec_eq. unfold generateMoves_spec.
  rewrite elem_of_app, elem_of_placements, elem_of_relocations.
  intros [(i & sz & -> & _ & Hc)|(from & to & t & -> & Et & Hp & _ & Hc)]; simpl.
  - done.
  - rewrite Et, Hc. by rewrite !bool_decide_eq_true_2.
Qed.

Lemma generated_applicable p s m : m ∈ generateAllMoves p s → applicable s m.
Proof. intros H. eapply legal_applicable, generated_legal, H. Qed.

(** C6: the generated list holds no relocation whose source is its
    destination and no placement of a size of which the player has none
    left; and it is the enumeration in the fixed order: placements by size
    small, medium, large, each over the cells 0 to 8, then relocations by
    source cell 0 to 8 and, for each source, by destination cell 0 to 8
    without the source. *)
Theorem generateAllMoves_order (p : Player) (s : State) :
  generateAllMoves p s = generateMoves_spec p s ∧
  (∀ from to sz, move from to sz ∈ generateAllMoves p s → from ≠ to) ∧
  (∀ index sz, place index sz ∈ generateAllMoves p s →
     left_get (piecesLeft s) p sz ≠ 0 ∧ 0 < left_get (piecesLeft s) p sz).
Proof.
  split; [apply generateAllMoves_spec_eq|].
  rewrite generateAllMoves_spec_eq. unfold generateMoves_spec. split.
  - intros from to sz. rewrite elem_of_app, elem_of_placements, elem_of_relocations.
    intros [(i & sz' & [=] & _)|(from' & to' & t & [= -> -> ->] & _ & _ & Hne & _)].
    congruence.
  - intros index sz. rewrite elem_of_app, elem_of_placements, elem_of_relocations.
    intros [(i & sz' & [= -> ->] & Hl & _)|(from' & to' & t & [=] & _)].
    lia.
Qed.

(** ** Running the state computations *)

Lemma run_bind {A B} (m : M A) (f : A → M B) s :
  (m ≫= f) s = match m s with Some (a, s') => f a s' | None => None end.
Proof. reflexivity. Qed.

Lemma run_ret {A} (a : A) s : (mret a : M A) s = Some (a, s).
Proof. reflexivity. Qed.

Lemma run_gets {A} (f : State → A) s : gets f s = Some (f s, s).
Proof. reflexivity. Qed.

(** The pattern of every search loop: apply a move, compute something that
    leaves the state as it found it, undo the move. *)
Lemma run_apply_undo {A B} m p (K : M A) (F : A → M B) s s' a :
  applyMove m p s = Some (tt, s') →
  undoMoveGeneric m p s' = Some (tt, s) →
  K s' = Some (a, s') →
  (applyMove m p ≫= λ _, K ≫= λ x, undoMoveGeneric m p ≫= λ _, F x) s = F a s.
Proof.
  intros Ha Hu HK. rewrite run_bind, Ha, run_bind, HK, run_bind, Hu. done.
Qed.

Lemma after_apply m p s s' : applyMove m p s = Some (tt, s') → after m p s = Some s'.
Proof. unfold after. by intros ->. Qed.

(** ** The heuristic strategies *)

Lemma findWinning_loop_spec p moves s :
  Forall (applicable s) moves →
  findWinning_loop p moves s = Some (List.find (winsAfter p s) moves, s).
Proof.
  induction 1 as [|m rest Hm _ IH]; [done|].
  destruct (apply_undo m p s Hm) as (s' & Ha & Hu).
  cbn [findWinning_loop List.find].
  rewrite (run_apply_undo m p _ _ s s' (checkWinner s') Ha Hu) by done.
  unfold winsAfter at 1. rewrite (after_apply _ _ _ _ Ha).
  destruct (checkWinner s'); [done|apply IH].
Qed.

Lemma generated_all_applicable p s : Forall (applicable s) (generateAllMoves p s).
Proof. apply Forall_forall. intros m. apply generated_applicable. Qed.

Lemma findWinningMoveGeneric_spec p s :
  findWinningMoveGeneric p s = Some (winningMove_spec p s, s).
Proof.
  unfold findWinningMoveGeneric. rewrite run_bind, run_gets.
  apply findWinning_loop_spec, generated_all_applicable.
Qed.

Lemma findBlocking_loop_spec bot moves s :
  Forall (applicable s) moves →
  findBlocking_loop bot (opponentOf bot) moves s
  = Some (List.find (blocksAfter bot s) moves, s).
Proof.
  induction 1 as [|m rest Hm _ IH]; [done|].
  destruct (apply_undo m bot s Hm) as (s' & Ha & Hu).
  cbn [findBlocking_loop List.find].
  rewrite (run_apply_undo m bot _ _ s s' _ Ha Hu (findWinningMoveGeneric_spec _ s')).
  unfold blocksAfter at 1. rewrite (after_apply _ _ _ _ Ha).
  destruct (winningMove_spec (opponentOf bot) s'); [apply IH|done].
Qed.

Lemma findBlockingMoveGeneric_spec bot s :
  findBlockingMoveGeneric bot s = Some (blockingMove_spec bot s, s).
Proof.
  unfold findBlockingMoveGeneric, blockingMove_spec.
  rewrite run_bind, findWinningMoveGeneric_spec.
  destruct (winningMove_spec (opponentOf bot) s); [|done].
  rewrite run_bind, run_gets.
  apply findBlocking_loop_spec, generated_all_applicable.
Qed.

Lemma find_elem_of {A} (f : A → bool) l x : List.find f l = Some x → x ∈ l ∧ f x = true.
Proof.
  intros H. apply find_some in H as [H1 H2]. by rewrite list_elem_of_In.
Qed.

Lemma randomMove_elem_of rnd moves :
  moves ≠ [] → ∃ m, randomMove rnd moves = Some m ∧ m ∈ moves.
Proof.
  intros Hne. unfold randomMove.
  assert (Hlt : (rnd `mod` length moves < length moves)%nat).
  { apply Nat.mod_upper_bound. by destruct moves. }
  destruct (lookup_lt_is_Some_2 _ _ Hlt) as [m Hm].
  exists m. split; [done|]. by eapply list_elem_of_lookup_2.
Qed.

(** X22: the selection of the bot's move for difficulty "medium" and for
    difficulty "hard" is one and the same computation of the game state and
    of the random draw, and it leaves the state as it was: the first
    generated move of the bot after which [checkWinner] holds (for a line
    of either owner), else, when the opponent has such a move, the first
    generated move of the bot after which the opponent has none, else the
    drawn move of the list, which is a legal move. *)
Theorem medium_hard_same (rnd : nat) (bot : Player) (s : State) :
  let moves := generateAllMoves bot s in
  botMove_select "medium" rnd bot moves = botMove_select "hard" rnd bot moves ∧
  botMove_select "medium" rnd bot moves s = Some (strategy_spec rnd bot s, s) ∧
  botMove_select "hard" rnd bot moves s = Some (strategy_spec rnd bot s, s) ∧
  (∀ m, winningMove_spec bot s = Some m →
        strategy_spec rnd bot s = Some m ∧ m ∈ moves ∧ winsAfter bot s m = true) ∧
  (∀ m, winningMove_spec bot s = None → blockingMove_spec bot s = Some m →
        strategy_spec rnd bot s = Some m ∧ m ∈ moves ∧ blocksAfter bot s m = true) ∧
  (winningMove_spec bot s = None → blockingMove_spec bot s = None →
        strategy_spec rnd bot s = randomMove rnd moves ∧
        (moves ≠ [] → ∃ m, randomMove rnd moves = Some m ∧ m ∈ moves ∧
                           legal s bot m = true)).
Proof.
  intros moves.
  assert (Hsel : botMove_select "medium" rnd bot moves s
                 = Some (strategy_spec rnd bot s, s)).
  { unfold botMove_select, orElse, strategy_spec. cbn [bool_decide decide_rel].
    change (bool_decide ("medium"%string = "easy"%string)) with false.
    change (bool_decide ("medium"%string = "medium"%string)) with true.
    cbv iota. rewrite run_bind, findWinningMoveGeneric_spec.
    destruct (winningMove_spec bot s); [done|].
    rewrite run_bind, findBlockingMoveGeneric_spec.
    by destruct (blockingMove_spec bot s). }
  split; [reflexivity|]. split; [exact Hsel|]. split; [exact Hsel|].
  unfold strategy_spec. split; [|split].
  - intros m Hw. rewrite Hw. split; [done|].
    by apply find_elem_of in Hw.
  - intros m Hw Hb. rewrite Hw, Hb. split; [done|].
    unfold blockingMove_spec in Hb.
    destruct (winningMove_spec (opponentOf bot) s); [|done].
    by apply find_elem_of in Hb.
  - intros Hw Hb. rewrite Hw, Hb. split; [done|].
    intros Hne. destruct (randomMove_elem_of rnd moves Hne) as (m & Hm & Hin).
    exists m. split; [done|]. split; [done|]. by apply generated_legal.
Qed.

Lemma medium_hard_same_witness :
  winningMove_spec O threatState = Some (place 2%fin small) ∧
  botMove_select "medium" 7 O (generateAllMoves O threatState) threatState
  = Some (Some (place 2%fin small), threatState) ∧
  botMove_select "hard" 7 O (generateAllMoves O threatState) threatState
  = Some (Some (place 2%fin small), threatState).
Proof.
  destruct (medium_hard_same 7 O threatState) as (_ & Hm & Hh & Hw & _).
  destruct (Hw (place 2%fin small)) as (Hs & _); [reflexivity|].
  rewrite Hs in Hm, Hh. split; [reflexivity|]. by split.
Defined.

(** C8, a failing input. In a game against the bot on level "medium" or
    "hard", played from the page load by [handoverRun], the bot is to move
    in [handoverState]. No move gives the bot a line of its own; [X]
    threatens to complete the left column with a large piece on cell 0;
    the bot has moves that parry this, and the script's own blocking search
    finds one, [place 3 medium]. Yet the selection returns, as the winning
    move and whatever is drawn, the relocation of the bot's medium piece
    from cell 0 to cell 1, which is neither a winning nor a blocking move
    of the bot: it uncovers the small piece of [X] and completes the column
    of [X]. [botMove] makes this move and ends the game announcing the bot,
    on a board whose complete line is the human's and where the bot has
    none. *)
Theorem strategy_completes_opponents_line (rnd : nat) :
  Forall (λ d,
      run handoverRun (pageLoad (Some "1p"%string) (Some d) None)
      = Some (handoverGame d) ∧
      botMove_select d rnd O (generateAllMoves O handoverState) handoverState
      = Some (Some (move 0%fin 1%fin medium), handoverState) ∧
      ∃ g', dispatch (botTimerFired rnd) (handoverGame d) = Some g' ∧
            after (move 0%fin 1%fin medium) O handoverState = Some (state g') ∧
            ended g' = Some (msgBotWins d) ∧
            detectWinnerPlayer (state g') = Some X ∧
            existsb (ownsLine O (board (state g'))) lines8 = false)
    ["medium"%string; "hard"%string] ∧
  checkWinner handoverState = false ∧
  Forall (λ m, winsOwnLine O handoverState m = false)
    (generateAllMoves O handoverState) ∧
  place 0%fin large ∈ generateAllMoves X handoverState ∧
  winsOwnLine X handoverState (place 0%fin large) = true ∧
  findBlockingMoveGeneric O handoverState
  = Some (Some (place 3%fin medium), handoverState) ∧
  blocksOwnLine O handoverState (place 3%fin medium) = true ∧
  winsOwnLine O handoverState (move 0%fin 1%fin medium) = false ∧
  blocksOwnLine O handoverState (move 0%fin 1%fin medium) = false.
Proof.
  split.
  - repeat constructor; try (by vm_compute);
      (eexists; split; [vm_compute; reflexivity|by vm_compute]).
  - split; [reflexivity|]. split.
    + apply Forall_forall. intros m Hm.
      assert (Hall : forallb (λ m, negb (winsOwnLine O handoverState m))
                       (generateAllMoves O handoverState) = true)
        by by vm_compute.
      rewrite forallb_forall in Hall.
      apply negb_true_iff, Hall. by apply list_elem_of_In.
    + split; [apply (bool_decide_unpack _); by vm_compute|]. by vm_compute.
Qed.

(** ** Minimax *)

Lemma Num_max_Int best v :
  best ≠ PosInf → ∃ w, Num_max best (Int v) = Int w.
Proof. destruct best as [|b|]; [by eexists| |done]. intros _. unfold Num_max, Num_le. destruct (b <=? v); by eexists. Qed.

Lemma Num_min_Int best v :
  best ≠ NegInf → ∃ w, Num_min best (Int v) = Int w.
Proof. destruct best as [|b|]; [done| |by eexists]. intros _. unfold Num_min, Num_le. destruct (b <=? v); by eexists. Qed.

(** The loop of [minimax] gives a finite score and leaves the state alone
    when the recursive call does. *)
Lemma minimax_loop_total rec isMax p moves s :
  (∀ a b s1, ∃ v, rec a b s1 = Some (Int v, s1)) →
  Forall (applicable s) moves →
  ∀ best alpha beta,
    (if isMax : bool then best ≠ PosInf else best ≠ NegInf) →
    (moves ≠ [] ∨ ∃ v, best = Int v) →
    ∃ v, minimax_loop rec isMax p moves best alpha beta s = Some (Int v, s).
Proof.
  intros Hrec. induction 1 as [|m rest Hm _ IH]; intros best alpha beta Hb Hfin.
  - destruct Hfin as [?|[v ->]]; [done|]. by exists v.
  - destruct (apply_undo m p s Hm) as (s' & Ha & Hu).
    destruct (Hrec alpha beta s') as [v Hv].
    cbn [minimax_loop].
    rewrite (run_apply_undo m p _ _ s s' (Int v) Ha Hu Hv).
    assert (∃ w, (if isMax then Num_max best (Int v) else Num_min best (Int v)) = Int w)
      as [w Hw].
    { destruct isMax; [by apply Num_max_Int|by apply Num_min_Int]. }
    rewrite Hw. destruct (Num_le _ _); [by exists w|].
    apply IH; [by destruct isMax|right; by exists w].
Qed.

Lemma minimax_fuel_total fuel :
  ∀ depth isMax bot human alpha beta limit s,
    (Z.to_nat (limit - depth) < fuel)%nat →
    ∃ v, minimax_fuel fuel depth isMax bot human alpha beta limit s = Some (Int v, s).
Proof.
  induction fuel as [|fuel IH]; intros depth isMax bot human alpha beta limit s Hfuel;
    [lia|].
  cbn [minimax_fuel]. rewrite run_bind, run_gets.
  destruct (bool_decide (_ = Some bot)); [by eexists|].
  destruct (bool_decide (_ = Some human)); [by eexists|].
  destruct (depth >=? limit) eqn:Hd; [by eexists|].
  rewrite run_bind, run_gets.
  destruct (bool_decide (_ = [])) eqn:Hnil; [by eexists|].
  apply bool_decide_eq_false in Hnil.
  apply minimax_loop_total.
  - intros a b s1. apply IH. rewrite Z.geb_leb in Hd. apply Z.leb_gt in Hd. lia.
  - apply generated_all_applicable.
  - by destruct isMax.
  - by left.
Qed.

(** [minimax] always returns, with a finite score and the state restored. *)
Lemma minimax_total depth isMax bot human alpha beta limit s :
  ∃ v, minimax depth isMax bot human alpha beta limit s = Some (Int v, s).
Proof. apply minimax_fuel_total. lia. Qed.

Lemma minimax_loop_ext rec1 rec2 isMax p moves :
  (∀ a b s, rec1 a b s = rec2 a b s) →
  ∀ best alpha beta s,
    minimax_loop rec1 isMax p moves best alpha beta s
    = minimax_loop rec2 isMax p moves best alpha beta s.
Proof.
  intros Hrec. induction moves as [|m rest IH]; intros best alpha beta s; [done|].
  cbn [minimax_loop]. rewrite !run_bind.
  destruct (applyMove m p s) as [[[] s1]|]; [|done].
  rewrite !run_bind, Hrec.
  destruct (rec2 alpha beta s1) as [[score s2]|]; [|done].
  rewrite !run_bind. destruct (undoMoveGeneric m p s2) as [[[] s3]|]; [|done].
  destruct (Num_le _ _); [done|apply IH].
Qed.

(** More fuel than the distance to the limit changes nothing. *)
Lemma minimax_fuel_enough fuel1 :
  ∀ fuel2 depth isMax bot human alpha beta limit s,
    (Z.to_nat (limit - depth) < fuel1)%nat →
    (Z.to_nat (limit - depth) < fuel2)%nat →
    minimax_fuel fuel1 depth isMax bot human alpha beta limit s
    = minimax_fuel fuel2 depth isMax bot human alpha beta limit s.
Proof.
  induction fuel1 as [|fuel1 IH];
    intros [|fuel2] depth isMax bot human alpha beta limit s H1 H2; try lia.
  cbn [minimax_fuel]. rewrite !run_bind, !run_gets.
  destruct (bool_decide (_ = Some bot)); [done|].
  destruct (bool_decide (_ = Some human)); [done|].
  destruct (depth >=? limit) eqn:Hd; [done|].
  rewrite !run_bind, !run_gets.
  destruct (bool_decide (_ = [])); [done|].
  apply minimax_loop_ext. intros a b s1.
  rewrite Z.geb_leb in Hd. apply Z.leb_gt in Hd. apply IH; lia.
Qed.

(** C3: the base cases of [minimax], in their order of precedence and before
    any recursion (one unit of fuel, which allows no recursive call, is
    enough for each of them): 100 minus the depth when the bot has won;
    otherwise -100 plus the depth when the human has won; otherwise 0 when
    the depth has reached the limit; otherwise 0 when the side to move has
    no legal move. The state is left as it was. *)
Theorem minimax_base_cases (depth : Z) (isMax : bool) (bot human : Player)
  (alpha beta : Num) (limit : Z) (s : State) :
  let winner := detectWinnerPlayer s in
  let side := if isMax then bot else human in
  let returns r :=
    minimax depth isMax bot human alpha beta limit s = Some (r, s) ∧
    ∀ n, minimax_fuel (S n) depth isMax bot human alpha beta limit s = Some (r, s) in
  (winner = Some bot → returns (Int (100 - depth))) ∧
  (winner ≠ Some bot → winner = Some human → returns (Int (-100 + depth))) ∧
  (winner ≠ Some bot → winner ≠ Some human → depth >= limit →
     returns (Int 0)) ∧
  (winner ≠ Some bot → winner ≠ Some human → depth < limit →
   generateAllMoves side s = [] → returns (Int 0)).
Proof.
  intros winner side returns.
  assert (Hret : ∀ r,
    (∀ n, minimax_fuel (S n) depth isMax bot human alpha beta limit s = Some (r, s)) →
    returns r).
  { intros r H. split; [apply H|exact H]. }
  assert (Hstep : ∀ n, minimax_fuel (S n) depth isMax bot human alpha beta limit s
    = (if bool_decide (winner = Some bot) then Some (Int (100 - depth), s)
       else if bool_decide (winner = Some human) then Some (Int (-100 + depth), s)
       else if depth >=? limit then Some (Int 0, s)
       else if bool_decide (generateAllMoves side s = []) then Some (Int 0, s)
       else minimax_fuel (S n) depth isMax bot human alpha beta limit s)).
  { intros n. cbn [minimax_fuel]. rewrite run_bind, run_gets. fold winner.
    destruct (bool_decide (winner = Some bot)); [done|].
    destruct (bool_decide (winner = Some human)); [done|].
    destruct (depth >=? limit); [done|].
    rewrite run_bind, run_gets. fold side.
    by destruct (bool_decide (generateAllMoves side s = [])). }
  split; [|split; [|split]].
  - intros Hw. apply Hret. intros n. rewrite Hstep.
    by rewrite bool_decide_eq_true_2.
  - intros Hb Hh. apply Hret. intros n. rewrite Hstep.
    by rewrite (bool_decide_eq_false_2 _ Hb), (bool_decide_eq_true_2 _ Hh).
  - intros Hb Hh Hd. apply Hret. intros n. rewrite Hstep.
    rewrite (bool_decide_eq_false_2 _ Hb), (bool_decide_eq_false_2 _ Hh).
    assert ((depth >=? limit) = true) as ->; [|done].
    rewrite Z.geb_leb. apply Z.leb_le. lia.
  - intros Hb Hh Hd Hnil. apply Hret. intros n. rewrite Hstep.
    rewrite (bool_decide_eq_false_2 _ Hb), (bool_decide_eq_false_2 _ Hh).
    assert ((depth >=? limit) = false) as ->.
    { rewrite Z.geb_leb. apply Z.leb_gt. lia. }
    by rewrite (bool_decide_eq_true_2 _ Hnil).
Qed.

Lemma minimax_base_cases_witness :
  minimax 1 false O X NegInf PosInf 4 (topRowState O)
  = Some (Int 99, topRowState O) ∧
  minimax 1 false O X NegInf PosInf 4 (topRowState X)
  = Some (Int (-99), topRowState X) ∧
  minimax 4 false O X NegInf PosInf 4 initialState = Some (Int 0, initialState) ∧
  minimax 1 false O X NegInf PosInf 4 stuckState = Some (Int 0, stuckState).
Proof.
  split; [|split; [|split]].
  - destruct (minimax_base_cases 1 false O X NegInf PosInf 4 (topRowState O))
      as (B1 & _).
    apply B1. reflexivity.
  - destruct (minimax_base_cases 1 false O X NegInf PosInf 4 (topRowState X))
      as (_ & B2 & _).
    apply B2; [by vm_compute|reflexivity].
  - destruct (minimax_base_cases 4 false O X NegInf PosInf 4 initialState)
      as (_ & _ & B3 & _).
    apply B3; [by vm_compute|by vm_compute|lia].
  - destruct (minimax_base_cases 1 false O X NegInf PosInf 4 stuckState)
      as (_ & _ & _ & B4).
    apply B4; [by vm_compute|by vm_compute|lia|reflexivity].
Defined.

(** ** The minimax driver *)

Lemma onePly_total bot s m :
  applicable s m →
  ∃ v s', applyMove m bot s = Some (tt, s') ∧
          undoMoveGeneric m bot s' = Some (tt, s) ∧
          minimax 1 false bot (opponentOf bot) NegInf PosInf 4 s' = Some (Int v, s') ∧
          onePly bot s m = Some (Int v).
Proof.
  intros Hm. destruct (apply_undo m bot s Hm) as (s' & Ha & Hu).
  destruct (minimax_total 1 false bot (opponentOf bot) NegInf PosInf 4 s') as [v Hv].
  exists v, s'. repeat split; try done.
  unfold onePly. by rewrite Ha, Hv.
Qed.

Lemma Num_gt_Int v w : Num_gt (Int v) (Int w) = true ↔ w < v.
Proof. unfold Num_gt, Num_le. rewrite negb_true_iff. apply Z.leb_gt. Qed.

Lemma Num_le_Int v w : Num_le (Int v) (Int w) = true ↔ v <= w.
Proof. apply Z.leb_le. Qed.

Lemma Num_gt_le_lt v w best :
  Num_le (Int v) best = true → Num_gt (Int w) best = true → v < w.
Proof.
  destruct best as [|b|]; try done.
  rewrite Num_le_Int, Num_gt_Int. lia.
Qed.

Lemma Num_gt_trans v w best :
  Num_gt (Int v) best = true → v < w → Num_gt (Int w) best = true.
Proof.
  destruct best as [|b|]; try done. rewrite !Num_gt_Int. lia.
Qed.

Lemma minimaxBestMove_loop_spec bot s moves :
  Forall (applicable s) moves →
  ∀ bestScore bestMove,
  ∃ r,
    minimaxBestMove_loop bot (opponentOf bot) 4 moves bestScore bestMove s
    = Some (r, s) ∧
    ((r = bestMove ∧
      ∀ x, x ∈ moves →
        ∃ w, onePly bot s x = Some (Int w) ∧ Num_le (Int w) bestScore = true) ∨
     (∃ pre m post v,
        moves = pre ++ m :: post ∧ r = Some m ∧
        onePly bot s m = Some (Int v) ∧ Num_gt (Int v) bestScore = true ∧
        (∀ x, x ∈ pre → ∃ w, onePly bot s x = Some (Int w) ∧ w < v) ∧
        (∀ x, x ∈ post → ∃ w, onePly bot s x = Some (Int w) ∧ w <= v))).
Proof.
  induction 1 as [|m rest Hm _ IH]; intros bestScore bestMove.
  - exists bestMove. split; [done|]. left. split; [done|].
    intros x Hx. by apply elem_of_nil in Hx.
  - destruct (onePly_total bot s m Hm) as (v & s' & Ha & Hu & Hv & Hone).
    cbn [minimaxBestMove_loop].
    rewrite (run_apply_undo m bot _ _ s s' (Int v) Ha Hu Hv).
    destruct (Num_gt (Int v) bestScore) eqn:Hgt.
    + destruct (IH (Int v) (Some m)) as (r & Hr & Hcase).
      exists r. split; [done|]. right.
      destruct Hcase as [[-> Hall]|(pre & m' & post & v' & -> & -> & Hm' & Hgt' & Hpre & Hpost)].
      * exists [], m, rest, v. repeat split; try done.
        -- intros x Hx. by apply elem_of_nil in Hx.
        -- intros x Hx. destruct (Hall x Hx) as (w & Hw & Hle).
           exists w. by rewrite <- Num_le_Int.
      * apply Num_gt_Int in Hgt'.
        exists (m :: pre), m', post, v'. repeat split; try done.
        -- by eapply Num_gt_trans.
        -- intros x [->|Hx]%elem_of_cons; [by exists v|by apply Hpre].
    + unfold Num_gt in Hgt. apply negb_false_iff in Hgt.
      destruct (IH bestScore bestMove) as (r & Hr & Hcase).
      exists r. split; [done|].
      destruct Hcase as [[-> Hall]|(pre & m' & post & v' & -> & -> & Hm' & Hgt' & Hpre & Hpost)].
      * left. split; [done|].
        intros x [->|Hx]%elem_of_cons; [by exists v|by apply Hall].
      * right. exists (m :: pre), m', post, v'. repeat split; try done.
        intros x [->|Hx]%elem_of_cons; [|by apply Hpre].
        exists v. split; [done|]. by eapply Num_gt_le_lt.
Qed.

(** C4: [minimaxBestMove] returns null exactly when the bot's generated move
    list is empty. Otherwise it returns a candidate whose one-ply-ahead
    evaluation (minimax at depth 1, minimizing, with depth limit 4, in the
    state after the candidate) is the greatest among all candidates, and
    the first such candidate in generation order: every candidate before it
    scores strictly less. The search leaves the state as it was. *)
Theorem minimaxBestMove_first_max (bot : Player) (s : State) :
  let moves := generateAllMoves bot s in
  ∃ r,
    minimaxBestMove bot s = Some (r, s) ∧
    (r = None ↔ moves = []) ∧
    match r with
    | None => moves = []
    | Some m =>
        ∃ pre post v,
          moves = pre ++ m :: post ∧
          onePly bot s m = Some (Int v) ∧
          (∀ x, x ∈ moves → ∃ w, onePly bot s x = Some (Int w) ∧ w <= v) ∧
          (∀ x, x ∈ pre → ∃ w, onePly bot s x = Some (Int w) ∧ w < v)
    end.
Proof.
  intros moves.
  destruct (minimaxBestMove_loop_spec bot s moves (generated_all_applicable bot s)
              NegInf None) as (r & Hr & Hcase).
  exists r. split.
  { unfold minimaxBestMove. by rewrite run_bind, run_gets. }
  destruct Hcase as [[-> Hall]|(pre & m & post & v & Hsplit & -> & Hm & _ & Hpre & Hpost)].
  - assert (Hnil : moves = []).
    { destruct moves as [|x l]; [done|].
      destruct (Hall x) as (w & _ & Hle); [left|done]. }
    done.
  - split.
    { split; [done|]. rewrite Hsplit. by destruct pre. }
    exists pre, post, v. repeat split; try done.
    intros x. rewrite Hsplit, elem_of_app, elem_of_cons.
    intros [Hx|[->|Hx]].
    + destruct (Hpre x Hx) as (w & Hw & Hlt). exists w. split; [done|lia].
    + exists v. split; [done|lia].
    + by apply Hpost.
Qed.

(** ** The stacking invariant *)

Lemma increasing_nil : increasing [].
Proof. intros i j a b _ H. by rewrite lookup_nil in H. Qed.

Lemma increasing_push st pc :
  increasing st →
  (∀ t, top st = Some t → rank (size t) < rank (size pc)) →
  increasing (push st pc).
Proof.
  intros Hinc Htop i j a b Hij Ha Hb. unfold push in *.
  apply lookup_snoc_Some in Hb as [[Hj Hb]|[Hj <-]].
  - apply lookup_snoc_Some in Ha as [[_ Ha]|[Hi _]]; [|lia].
    by apply (Hinc i j).
  - apply lookup_snoc_Some in Ha as [[Hi Ha]|[Hi _]]; [|lia].
    unfold top in Htop. rewrite last_lookup in Htop.
    destruct (st !! Nat.pred (length st)) as [t|] eqn:Et.
    + specialize (Htop t eq_refl).
      destruct (decide (i = Nat.pred (length st))) as [->|Hne].
      * congruence.
      * assert (rank (size a) < rank (size t)); [|lia].
        apply (Hinc i (Nat.pred (length st))); [lia|done..].
    + apply lookup_ge_None in Et. lia.
Qed.

Lemma increasing_pop rest pc : increasing (push rest pc) → increasing rest.
Proof.
  intros Hinc i j a b Hij Ha Hb.
  apply (Hinc i j); [done|by apply lookup_app_l_Some..].
Qed.

Lemma canPlace_above index p sz isMove s t :
  canPlace index p sz isMove s = true →
  topAt (board s) index = Some t → rank (size t) < rank sz.
Proof.
  rewrite canPlace_topRank, andb_true_iff, negb_true_iff, Z.leb_gt.
  unfold topRank. intros [H _] Et. by rewrite Et in H.
Qed.

Lemma legal_move_inv s p from to sz :
  legal s p (move from to sz) = true →
  ∃ t, topAt (board s) from = Some t ∧ player t = p ∧ size t = sz ∧
       canPlace to p sz true s = true ∧ from ≠ to.
Proof.
  unfold legal. destruct (topAt (board s) from) as [t|] eqn:Et; [|done].
  rewrite !andb_true_iff, !bool_decide_eq_true. intros [[Hp Hsz] Hcan].
  exists t. repeat split; try done.
  intros <-. pose proof (canPlace_above _ _ _ _ _ _ Hcan Et) as H.
  rewrite Hsz in H. lia.
Qed.

Lemma step_increasing s p m s' :
  (∀ i, increasing (board s !!! i)) →
  legal s p m = true →
  applyMove m p s = Some (tt, s') →
  ∀ i, increasing (board s' !!! i).
Proof.
  intros Hinv Hlegal Ha i. destruct s as [b pl].
  destruct m as [index sz|from to sz]; unfold applyMove in Ha;
    cbn [board piecesLeft] in *.
  - injection Ha as <-. cbn [board].
    destruct (decide (index = i)) as [->|Hne].
    + rewrite vlookup_insert. apply increasing_push; [apply Hinv|].
      intros t Ht. by eapply (canPlace_above i p sz false (mkState b pl)).
    + rewrite vlookup_insert_ne by done. apply Hinv.
  - apply legal_move_inv in Hlegal as (t & Et & _ & Hsz & Hcan & Hne).
    cbn [board] in Et.
    destruct (pop (b !!! from)) as [[mv|] rest] eqn:Hpop; [|done].
    injection Ha as <-. cbn [board].
    pose proof (pop_Some _ _ _ Hpop) as Hst.
    assert (mv = t) as ->.
    { unfold topAt in Et. rewrite Hst, top_push in Et. congruence. }
    rewrite (vlookup_insert_ne from to) by done.
    destruct (decide (to = i)) as [->|Hto].
    + rewrite vlookup_insert. apply increasing_push; [apply Hinv|].
      intros t' Ht'. rewrite Hsz.
      by eapply (canPlace_above i p sz true (mkState b pl)).
    + rewrite vlookup_insert_ne by done.
      destruct (decide (from = i)) as [->|Hfrom].
      * rewrite vlookup_insert. apply (increasing_pop rest t).
        rewrite <- Hst. apply Hinv.
      * rewrite vlookup_insert_ne by done. apply Hinv.
Qed.

Lemma init_increasing i : increasing (board initialState !!! i).
Proof.
  unfold initialState. cbn [board]. rewrite vlookup_replicate.
  apply increasing_nil.
Qed.

(** C7: in every state reached from the initial state (nine empty stacks,
    every count 2) by legal moves, the sizes of every stack strictly
    increase from the bottom to the top. [canPlace] only accepts a size of
    strictly higher rank than the top piece of a non-empty cell, so every
    legal placement and every legal relocation from such a state keeps the
    invariant. *)
Theorem reachable_increasing (s : State) :
  reachable s →
  (∀ i, increasing (board s !!! i)) ∧
  (∀ index p sz isMove t,
     canPlace index p sz isMove s = true →
     topAt (board s) index = Some t → rank (size t) < rank sz) ∧
  (∀ p m s',
     legal s p m = true → applyMove m p s = Some (tt, s') →
     ∀ i, increasing (board s' !!! i)).
Proof.
  intros Hreach.
  assert (Hinv : ∀ i, increasing (board s !!! i)).
  { induction Hreach as [|s p m s' _ IH Hlegal Ha].
    - apply init_increasing.
    - by apply (step_increasing s p m s'). }
  split; [exact Hinv|]. split.
  - intros index p sz isMove t. apply canPlace_above.
  - intros p m s'. by apply step_increasing.
Qed.

Lemma centreState_reachable : reachable centreState.
Proof.
  apply (reachable_step initialState X (place 4%fin small));
    [apply reachable_init|reflexivity|reflexivity].
Qed.

Lemma reachable_increasing_witness :
  reachable centreState ∧ ∀ i, increasing (board centreState !!! i).
Proof.
  split; [exact centreState_reachable|].
  exact (proj1 (reachable_increasing centreState centreState_reachable)).
Defined.

(** ** The turn controller *)

Lemma generated_place p s index sz :
  canPlace index p sz false s = true → place index sz ∈ generateAllMoves p s.
Proof.
  intros Hc. rewrite generateAllMoves_spec_eq. apply elem_of_app. left.
  apply elem_of_placements. exists index, sz. split; [done|]. split; [|done].
  rewrite canPlace_topRank, andb_true_iff, negb_true_iff in Hc.
  destruct Hc as [_ Hl]. cbn [orb] in Hl. apply negb_true_iff, Z.leb_gt in Hl.
  exact Hl.
Qed.

Lemma generated_move p s from to t :
  topAt (board s) from = Some t → player t = p → to ≠ from →
  canPlace to p (size t) true s = true →
  move from to (size t) ∈ generateAllMoves p s.
Proof.
  intros Et Hp Hne Hc. rewrite generateAllMoves_spec_eq. apply elem_of_app. right.
  apply elem_of_relocations. by exists from, to, t.
Qed.

(** What a click does to the board and the inventories is either nothing
    or a move of the player to move that the generator lists; the move is
    carried out as [applyMove] would. *)
Lemma handleCellClick_step index g :
  selection_ok g →
  state (handleCellClick index g) = state g ∨
  ∃ m, m ∈ generateAllMoves (currentPlayer g) (state g) ∧
       applyMove m (currentPlayer g) (state g)
       = Some (tt, state (handleCellClick index g)).
Proof.
  intros Hsel. unfold handleCellClick.
  destruct (bool_decide (selectedFrom g = Some index)) eqn:Hsame; [by left|].
  apply bool_decide_eq_false in Hsame.
  destruct (match topAt (board (state g)) index with
            | Some t => bool_decide (player t = currentPlayer g)
            | None => false
            end); [by left|].
  assert (Hafter : ∀ g', state (afterHumanMove g') = state g').
  { intros g'. unfold afterHumanMove. destruct (checkWinner _); [done|].
    by destruct (_ && _). }
  destruct (selectedFrom g) as [from|] eqn:Hfrom.
  - destruct (pop (board (state g) !!! from)) as [[mp|] rest] eqn:Hpop; [|by left].
    destruct (canPlace index _ _ true _) eqn:Hcan; [|by left].
    right. cbn [negb]. rewrite Hafter. cbn [state].
    destruct (Hsel from Hfrom) as (t & Et & Hp).
    pose proof (pop_Some _ _ _ Hpop) as Hst.
    assert (mp = t) as ->.
    { unfold topAt in Et. rewrite Hst, top_push in Et. congruence. }
    exists (move from index (size t)). split.
    + apply (generated_move _ _ _ _ t); try done. congruence.
    + unfold applyMove. by rewrite Hpop.
  - destruct (selectedSize g) as [sz|]; [|by left].
    destruct (canPlace index _ sz false _) eqn:Hcan; [|by left].
    right. cbn [negb]. rewrite Hafter.
    exists (place index sz). split; [by apply generated_place|done].
Qed.

(** ** The script only makes legal moves *)

Lemma handleCellClick_reachable index g :
  selection_ok g → reachable (state g) →
  reachable (state (handleCellClick index g)).
Proof.
  intros Hsel Hr.
  destruct (handleCellClick_step index g Hsel) as [->|(m & Hin & Ha)]; [done|].
  eapply reachable_step; [exact Hr|by apply generated_legal|exact Ha].
Qed.

Lemma afterHumanMove_selection g :
  selectedFrom g = None → selectedFrom (afterHumanMove g) = None.
Proof.
  intros H. unfold afterHumanMove. destruct (checkWinner _); [done|].
  by destruct (_ && _).
Qed.

Lemma handleCellClick_selection_ok index g :
  selection_ok g → selection_ok (handleCellClick index g).
Proof.
  intros Hsel. unfold handleCellClick.
  destruct (bool_decide (selectedFrom g = Some index)); [by intros from [=]|].
  destruct (topAt (board (state g)) index) as [t|] eqn:Et.
  - destruct (bool_decide (player t = currentPlayer g)) eqn:Hown.
    + apply bool_decide_eq_true in Hown. intros from [= <-]. by exists t.
    + destruct (selectedFrom g) as [from|] eqn:Hfrom.
      * destruct (pop _) as [[mp|] rest]; [|done].
        destruct (negb _); [done|].
        intros from' H. by rewrite afterHumanMove_selection in H.
      * destruct (selectedSize g) as [sz|]; [|done].
        destruct (negb _); [done|].
        intros from' H. rewrite afterHumanMove_selection in H; [done|].
        cbn [set_state selectedFrom]. exact Hfrom.
  - destruct (selectedFrom g) as [from|] eqn:Hfrom.
    + destruct (pop _) as [[mp|] rest]; [|done].
      destruct (negb _); [done|].
      intros from' H. by rewrite afterHumanMove_selection in H.
    + destruct (selectedSize g) as [sz|]; [|done].
      destruct (negb _); [done|].
      intros from' H. rewrite afterHumanMove_selection in H; [done|].
      cbn [set_state selectedFrom]. exact Hfrom.
Qed.

Lemma minimaxBestMove_elem_of bot s :
  ∃ r, minimaxBestMove bot s = Some (r, s) ∧
       ∀ m, r = Some m → m ∈ generateAllMoves bot s.
Proof.
  destruct (minimaxBestMove_loop_spec bot s _ (generated_all_applicable bot s)
              NegInf None) as (r & Hr & Hcase).
  exists r. split.
  { unfold minimaxBestMove. by rewrite run_bind, run_gets. }
  intros m ->.
  destruct Hcase as [[[=] _]|(pre & m' & post & v & Hsplit & [= <-] & _)].
  rewrite Hsplit. apply elem_of_app. right. left.
Qed.

Lemma strategy_spec_elem_of rnd bot s m :
  strategy_spec rnd bot s = Some m → m ∈ generateAllMoves bot s.
Proof.
  unfold strategy_spec, blockingMove_spec.
  destruct (winningMove_spec bot s) as [w|] eqn:Hw.
  - intros [= <-]. by apply find_elem_of in Hw as [? _].
  - destruct (winningMove_spec (opponentOf bot) s).
    + destruct (List.find _ _) as [b|] eqn:Hb.
      * intros [= <-]. by apply find_elem_of in Hb as [? _].
      * apply list_elem_of_lookup_2.
    + apply list_elem_of_lookup_2.
Qed.

(** Whatever the difficulty, the selection of [botMove] leaves the state
    as it was and, on a non-empty list, yields one of the generated moves. *)
Lemma botMove_select_spec d rnd bot s :
  let moves := generateAllMoves bot s in
  moves ≠ [] →
  ∃ m, botMove_select d rnd bot moves s = Some (Some m, s) ∧ m ∈ moves.
Proof.
  intros moves Hne.
  destruct (randomMove_elem_of rnd moves Hne) as (mr & Hmr & Hin).
  assert (Hstrat :
    orElse (findWinningMoveGeneric bot)
      (orElse (findBlockingMoveGeneric bot) (mret (randomMove rnd moves))) s
    = Some (strategy_spec rnd bot s, s)).
  { unfold orElse, strategy_spec.
    rewrite run_bind, findWinningMoveGeneric_spec.
    destruct (winningMove_spec bot s); [done|].
    rewrite run_bind, findBlockingMoveGeneric_spec.
    by destruct (blockingMove_spec bot s). }
  assert (Hsome : ∃ m, strategy_spec rnd bot s = Some m ∧ m ∈ moves).
  { destruct (strategy_spec rnd bot s) as [m|] eqn:E.
    - exists m. split; [done|]. by eapply strategy_spec_elem_of.
    - exfalso. unfold strategy_spec in E.
      destruct (winningMove_spec bot s); [done|].
      destruct (blockingMove_spec bot s); [done|].
      fold moves in E. congruence. }
  unfold botMove_select.
  destruct (bool_decide (d = "easy"%string)).
  { exists mr. by rewrite run_ret, Hmr. }
  destruct (bool_decide (d = "medium"%string)).
  { destruct Hsome as (m & Hm & Hm'). exists m. by rewrite Hstrat, Hm. }
  destruct (bool_decide (d = "hard"%string)).
  { destruct Hsome as (m & Hm & Hm'). exists m. by rewrite Hstrat, Hm. }
  destruct (minimaxBestMove_elem_of bot s) as (r & Hr & Hin').
  unfold orElse. rewrite run_bind, Hr. destruct r as [m|].
  - exists m. split; [done|]. by apply Hin'.
  - exists mr. by rewrite run_ret, Hmr.
Qed.

(** [botMove] always completes, and what it does to the board and the
    inventories is nothing (a draw) or a legal move of [O]. *)
Lemma botMove_total rnd g :
  ∃ g', botMove rnd g = Some g' ∧
    (state g' = state g ∨
     ∃ m, legal (state g) O m = true ∧
          applyMove m O (state g) = Some (tt, state g')).
Proof.
  unfold botMove.
  destruct (bool_decide (generateAllMoves O (state g) = [])) eqn:Hnil.
  - eexists. split; [done|]. by left.
  - apply bool_decide_eq_false in Hnil.
    destruct (botMove_select_spec (difficulty g) rnd O (state g) Hnil)
      as (m & Hsel & Hin).
    rewrite Hsel.
    destruct (apply_undo m O (state g) (generated_applicable _ _ _ Hin))
      as (s2 & Ha & _).
    rewrite Ha.
    assert (Hstep : ∃ m, legal (state g) O m = true ∧
                         applyMove m O (state g) = Some (tt, s2)).
    { exists m. split; [by apply generated_legal|done]. }
    destruct (checkWinner s2); eexists; (split; [done|]); by right.
Qed.

Lemma botMove_reachable rnd g g' :
  reachable (state g) → botMove rnd g = Some g' → reachable (state g').
Proof.
  intros Hr Hbot. destruct (botMove_total rnd g) as (g'' & Hbot' & Hcase).
  assert (g'' = g') as -> by congruence.
  destruct Hcase as [->|(m & Hlegal & Ha)]; [done|].
  by eapply reachable_step.
Qed.

(** ** In play there is always a legal move

    The test [!moves.length] of [botMove] (the draw) and of [minimax] never
    succeeds in a state of play: a player always has a large piece left to
    place or visible on the board, and at most four cells show a large
    piece. *)

Lemma largesIn_push p st pc :
  largesIn p (push st pc)
  = (largesIn p st + if bool_decide (pc = mkPiece p large) then 1 else 0)%nat.
Proof.
  unfold largesIn, push. rewrite filter_app, length_app. f_equal.
  rewrite filter_cons, filter_nil. by repeat case_decide.
Qed.

Lemma largesOnBoard_vinsert p (b : Board) j st :
  (largesOnBoard p (vinsert j st b) + largesIn p (b !!! j)
   = largesOnBoard p b + largesIn p st)%nat.
Proof.
  unfold largesOnBoard, cells. inv_vec b. intros s0 s1 s2 s3 s4 s5 s6 s7 s8.
  cell_cases j by (simpl; lia).
Qed.

Lemma step_larges_accounted s p m s' :
  larges_accounted s → legal s p m = true →
  applyMove m p s = Some (tt, s') → larges_accounted s'.
Proof.
  intros Hacc Hlegal Ha q. destruct (Hacc q) as [Hge Hsum].
  destruct s as [b pl]. destruct m as [index sz|from to sz];
    unfold applyMove in Ha; cbn [board piecesLeft legal] in *.
  - injection Ha as <-. cbn [board piecesLeft].
    pose proof (largesOnBoard_vinsert q b index
                  (push (b !!! index) (mkPiece p sz))) as Hins.
    rewrite largesIn_push in Hins.
    rewrite canPlace_topRank, andb_true_iff in Hlegal.
    destruct Hlegal as [_ Hpos]. cbn [orb piecesLeft] in Hpos.
    apply negb_true_iff, Z.leb_gt in Hpos.
    destruct (decide (mkPiece p sz = mkPiece q large)) as [[= -> ->]|Hne].
    + rewrite bool_decide_eq_true_2 in Hins by done.
      rewrite left_get_set. lia.
    + rewrite bool_decide_eq_false_2 in Hins by done.
      assert (left_get (left_set pl p sz (left_get pl p sz - 1)) q large
              = left_get pl q large) as ->; [|lia].
      destruct pl as [[] []], p, q, sz; try done; by destruct Hne.
  - destruct (pop (b !!! from)) as [[mv|] rest] eqn:Hpop; [|done].
    injection Ha as <-. cbn [board piecesLeft].
    pose proof (pop_Some _ _ _ Hpop) as Hst.
    pose proof (largesOnBoard_vinsert q b from rest) as H1.
    pose proof (largesOnBoard_vinsert q (vinsert from rest b) to
                  (push (vinsert from rest b !!! to) mv)) as H2.
    rewrite Hst, largesIn_push in H1. rewrite largesIn_push in H2. lia.
Qed.

Lemma reachable_larges_accounted s : reachable s → larges_accounted s.
Proof.
  induction 1 as [|s p m s' _ IH Hlegal Ha].
  - by intros [].
  - by eapply step_larges_accounted.
Qed.

(** A large piece has nothing on top of it. *)
Lemma large_is_top st pc :
  increasing st → pc ∈ st → size pc = large → top st = Some pc.
Proof.
  intros Hinc [k Hk]%list_elem_of_lookup Hsz. unfold top. rewrite last_lookup.
  pose proof (lookup_lt_Some _ _ _ Hk) as Hlt.
  destruct (decide (k = Nat.pred (length st))) as [->|Hne]; [done|].
  destruct (lookup_lt_is_Some_2 st (Nat.pred (length st))) as [t Ht]; [lia|].
  assert (rank (size pc) < rank (size t)) as H.
  { apply (Hinc k (Nat.pred (length st))); [lia|done..]. }
  rewrite Hsz in H. pose proof (rank_range (size t)).
  destruct rank_values as (_ & _ & Hl). lia.
Qed.

Lemma top_elem_of st t : top st = Some t → t ∈ st.
Proof. unfold top. rewrite last_Some. intros [l' ->]. apply elem_of_app. right. left. Qed.

Lemma largesIn_pos p st : mkPiece p large ∈ st → (0 < largesIn p st)%nat.
Proof.
  intros Hin. unfold largesIn.
  assert (H : mkPiece p large ∈ filter (λ pc, pc = mkPiece p large) st).
  { by apply list_elem_of_filter. }
  destruct (filter _ st); [by apply elem_of_nil in H|simpl; lia].
Qed.

Lemma largesIn_elem_of p st : (0 < largesIn p st)%nat → mkPiece p large ∈ st.
Proof.
  unfold largesIn. destruct (filter _ st) as [|pc l] eqn:E; simpl; [lia|].
  intros _. assert (H : pc ∈ filter (λ pc, pc = mkPiece p large) st).
  { rewrite E. left. }
  by apply list_elem_of_filter in H as [-> ?].
Qed.

(** A cell that shows a large piece counts for one of the players. *)
Lemma large_top_counted (b : Board) i :
  topRank b i = 2 →
  (1 ≤ largesIn X (b !!! i) + largesIn O (b !!! i))%nat.
Proof.
  unfold topRank, topAt. destruct (top (b !!! i)) as [[q sz]|] eqn:Et; [|done].
  cbn [size]. intros Hr.
  assert (sz = large) as -> by (apply rank_inj; by rewrite Hr).
  apply top_elem_of in Et. destruct q.
  - pose proof (largesIn_pos X _ Et). lia.
  - pose proof (largesIn_pos O _ Et). lia.
Qed.

Lemma sum_list_with_le {A} (f g : A → nat) l :
  Forall (λ x, (f x ≤ g x)%nat) l → (sum_list_with f l ≤ sum_list_with g l)%nat.
Proof. induction 1; simpl; lia. Qed.

Lemma sum_list_with_add {A} (f g : A → nat) l :
  sum_list_with (λ x, (f x + g x)%nat) l
  = (sum_list_with f l + sum_list_with g l)%nat.
Proof. induction l; simpl; lia. Qed.

Lemma sum_list_with_pos {A} (f : A → nat) l :
  (0 < sum_list_with f l)%nat → ∃ x, x ∈ l ∧ (0 < f x)%nat.
Proof.
  induction l as [|x l IH]; simpl; [lia|]. intros H.
  destruct (decide (0 < f x)%nat) as [Hx|Hx].
  - exists x. split; [left|done].
  - destruct IH as (y & Hy & Hfy); [lia|]. exists y. split; [by right|done].
Qed.

(** With at most four large pieces on the board, some cell other than
    [from] does not show a large piece. *)
Lemma free_cell (b : Board) (from : Cell) :
  (largesOnBoard X b + largesOnBoard O b ≤ 4)%nat →
  ∃ to, to ≠ from ∧ topRank b to < 2.
Proof.
  intros Hfew.
  destruct (decide (Exists (λ to, to ≠ from ∧ topRank b to < 2) cells))
    as [Hex|Hall].
  - apply Exists_exists in Hex as (to & _ & H). by exists to.
  - exfalso. apply not_Exists_Forall in Hall; [|intros to; apply _].
    assert (Hle : (sum_list_with (λ to, if decide (to = from) then 0 else 1) cells
            ≤ sum_list_with (λ i, largesIn X (b !!! i) + largesIn O (b !!! i)) cells)%nat).
    { apply sum_list_with_le. eapply Forall_impl; [exact Hall|].
      intros to Hto. cbn beta in Hto. case_decide; [lia|].
      apply large_top_counted.
      assert (topRank b to <= 2).
      { unfold topRank. destruct (topAt b to) as [t|]; [apply rank_range|lia]. }
      destruct (decide (topRank b to < 2)); [|lia]. by destruct Hto. }
    rewrite sum_list_with_add in Hle. fold (largesOnBoard X b) in Hle.
    fold (largesOnBoard O b) in Hle.
    assert (sum_list_with (λ to : Cell, if decide (to = from) then 0 else 1) cells
            = 8)%nat as Heq.
    { clear. cell_cases from by reflexivity. }
    lia.
Qed.

Lemma canPlace_large index p isMove s :
  topRank (board s) index < 2 →
  (isMove = false → 0 < left_get (piecesLeft s) p large) →
  canPlace index p large isMove s = true.
Proof.
  intros Htop Hleft. rewrite canPlace_topRank, andb_true_iff, negb_true_iff.
  destruct rank_values as (_ & _ & ->). split; [by apply Z.leb_gt|].
  destruct isMove; [done|]. cbn [orb]. apply negb_true_iff, Z.leb_gt. auto.
Qed.

(** In every state of play either player has a legal move: the draw of
    [botMove] and the no-move case of [minimax] do not arise in play. *)
Lemma reachable_has_move s p : reachable s → generateAllMoves p s ≠ [].
Proof.
  intros Hreach.
  pose proof (reachable_larges_accounted s Hreach) as Hacc.
  assert (Hinv : ∀ i, increasing (board s !!! i)).
  { clear Hacc. induction Hreach as [|s0 q m s' _ IH Hlegal Ha].
    - apply init_increasing.
    - by apply (step_increasing s0 q m s'). }
  assert (Hfew : (largesOnBoard X (board s) + largesOnBoard O (board s) ≤ 4)%nat).
  { destruct (Hacc X), (Hacc O). lia. }
  assert (Hmem : ∀ m, m ∈ generateAllMoves p s → generateAllMoves p s ≠ []).
  { intros m Hm E. rewrite E in Hm. by apply elem_of_nil in Hm. }
  destruct (Hacc p) as [Hge Hsum].
  destruct (decide (0 < left_get (piecesLeft s) p large)) as [Hpos|Hzero].
  - destruct (free_cell (board s) 0%fin Hfew) as (to & _ & Hto).
    apply (Hmem (place to large)), generated_place.
    by apply canPlace_large.
  - assert (Hon : (0 < largesOnBoard p (board s))%nat) by lia.
    apply sum_list_with_pos in Hon as (from & _ & Hfrom).
    apply largesIn_elem_of in Hfrom.
    pose proof (large_is_top _ _ (Hinv from) Hfrom eq_refl) as Htop.
    destruct (free_cell (board s) from Hfew) as (to & Hne & Hto).
    apply (Hmem (move from to (size (mkPiece p large)))).
    apply (generated_move p s from to (mkPiece p large)); try done.
    by apply canPlace_large.
Qed.

(** ** The scenarios of the specification, run on the model *)

(** On the empty board [X] places a small piece on the centre: the cell
    shows it, the count of small pieces of [X] drops from 2 to 1, and there
    is no winner. *)
Example scenario_centre :
  applyMove (place 4%fin small) X initialState = Some (tt, centreState) ∧
  topAt (board centreState) 4%fin = Some (mkPiece X small) ∧
  left_get (piecesLeft initialState) X small = 2 ∧
  left_get (piecesLeft centreState) X small = 1 ∧
  checkWinner centreState = false.
Proof. by vm_compute. Qed.

(** [O] shows cells 0 and 1; any piece it can place on the empty cell 2
    wins the top row. *)
Example scenario_complete_row :
  Forall (λ sz, winsAfter O threatState (place 2%fin sz) = true)
    [small; medium; large] ∧
  (snd <$> applyMove (place 2%fin small) O threatState) ≫= detectWinnerPlayer
  = Some O.
Proof. split; [repeat constructor|reflexivity]. Qed.

(** Cell 4 holds a small piece of [X]: [O] cannot place a small piece
    there, and the click changes nothing. *)
Example scenario_equal_size :
  let g := mkGame centreState "2p" "easy" O (Some small) None None 0 in
  canPlace 4%fin O small false centreState = false ∧
  handleCellClick 4%fin g = g.
Proof. by vm_compute. Qed.

(** Cell 0 holds a small [X] under a medium [O]: [X] may cover it with a
    large piece, which then shows. *)
Example scenario_cover :
  canPlace 0%fin X large false coveredState = true ∧
  (snd <$> applyMove (place 0%fin large) X coveredState)
    ≫= (λ s, topAt (board s) 0%fin) = Some (mkPiece X large).
Proof. by vm_compute. Qed.

(** In the stuck position the generator returns nothing for either player,
    and the bot, when it is to move, declares the draw. *)
Example scenario_stuck :
  generateAllMoves X stuckState = [] ∧ generateAllMoves O stuckState = [] ∧
  ended <$> botMove 0 (stuckGame O None None) = Some (Some msgDraw).
Proof. by vm_compute. Qed.

(** The minimax driver takes the immediate win when there is one. *)
Example scenario_minimax_win :
  minimaxBestMove O threatState = Some (Some (place 2%fin small), threatState) ∧
  onePly O threatState (place 2%fin small) = Some (Int 99).
Proof. by vm_compute. Qed.

(** * Further properties of the script *)

(** ** The generator and the legality rule *)

(** X1: the generator lists exactly the legal moves: a move is in
    [generateAllMoves(p)] if and only if it is a placement that [canPlace]
    accepts, or the relocation of a top piece of [p], carrying that piece's
    size, to a cell where [canPlace] accepts it as a move. *)
Theorem generated_iff_legal (p : Player) (s : State) (m : Move) :
  m ∈ generateAllMoves p s ↔ legal s p m = true.
Proof.
  split; [apply generated_legal|].
  destruct m as [index sz|from to sz].
  - apply generated_place.
  - intros (t & Et & Hp & <- & Hcan & Hne)%legal_move_inv.
    by apply (generated_move p s from to t).
Qed.

(** ** What a move changes *)

Lemma applyMove_frame_board m p s s' i :
  applyMove m p s = Some (tt, s') → ¬ touches m i →
  board s' !!! i = board s !!! i.
Proof.
  destruct m as [index sz|from to sz]; unfold applyMove, touches.
  - intros [= <-] Hi. cbn [board]. by rewrite vlookup_insert_ne by congruence.
  - destruct (pop (board s !!! from)) as [[mv|] rest]; [|done].
    intros [= <-] Hi. cbn [board].
    rewrite !vlookup_insert_ne; [done|intros ->; tauto..].
Qed.

Lemma left_get_set_ne pl p sz v q sz' :
  (q, sz') ≠ (p, sz) → left_get (left_set pl p sz v) q sz' = left_get pl q sz'.
Proof. intros Hne. destruct pl as [[] []], p, q, sz, sz'; try done; by destruct Hne. Qed.

(** X2: a move changes nothing but what it names. [applyMove] leaves every
    stack other than the destination (and, for a relocation, the source) as
    it was; a placement lowers only the mover's count of the placed size,
    and a relocation leaves both inventories alone. *)
Theorem applyMove_frame (m : Move) (p : Player) (s s' : State) :
  applyMove m p s = Some (tt, s') →
  (∀ i, ¬ touches m i → board s' !!! i = board s !!! i) ∧
  match m with
  | place _ sz =>
      ∀ q sz', (q, sz') ≠ (p, sz) →
        left_get (piecesLeft s') q sz' = left_get (piecesLeft s) q sz'
  | move _ _ _ => piecesLeft s' = piecesLeft s
  end.
Proof.
  intros Ha. split; [intros i; by apply (applyMove_frame_board m p)|].
  destruct m as [index sz|from to sz]; unfold applyMove in Ha.
  - injection Ha as <-. cbn [piecesLeft]. intros q sz'. apply left_get_set_ne.
  - destruct (pop (board s !!! from)) as [[mv|] rest]; [|done].
    by injection Ha as <-.
Qed.

Lemma applyMove_frame_witness :
  let s' := mkState (vinsert 0%fin [mkPiece X small] (vreplicate 9 []))
              (piecesLeft centreState) in
  applyMove (move 4%fin 0%fin small) X centreState = Some (tt, s') ∧
  board s' !!! 8%fin = board centreState !!! 8%fin ∧
  piecesLeft s' = piecesLeft centreState.
Proof.
  intros s'. split; [reflexivity|].
  destruct (applyMove_frame (move 4%fin 0%fin small) X centreState s' eq_refl)
    as [Hb Hp].
  split; [|exact Hp]. apply Hb. by intros [|].
Defined.

(** ** Only the tops count *)

Lemma renderBoard_top (b b' : Board) i :
  renderBoard b = renderBoard b' → top (b !!! i) = top (b' !!! i).
Proof.
  unfold renderBoard. intros H.
  by rewrite <- !(vlookup_map top), H.
Qed.

Lemma canPlace_tops b b' pl index p sz isMove :
  renderBoard b = renderBoard b' →
  canPlace index p sz isMove (mkState b pl)
  = canPlace index p sz isMove (mkState b' pl).
Proof.
  intros H. unfold canPlace. cbn [board piecesLeft].
  by rewrite (renderBoard_top b b' index H).
Qed.

Lemma scan_tops b b' wins :
  renderBoard b = renderBoard b' →
  checkWinner_scan b wins = checkWinner_scan b' wins ∧
  detectWinnerPlayer_scan b wins = detectWinnerPlayer_scan b' wins.
Proof.
  intros H. induction wins as [|[[c1 c2] c3] rest [IH1 IH2]]; [done|].
  cbn [checkWinner_scan detectWinnerPlayer_scan]. unfold topAt.
  rewrite !(renderBoard_top b b' _ H), IH1, IH2. done.
Qed.

(** X3: the rules never look below the top of a stack. Two boards that
    [renderBoard] draws alike get the same answers from [canPlace],
    [checkWinner] and [detectWinnerPlayer] and the same move list from
    [generateAllMoves] (the inventories being the same). *)
Theorem rules_see_only_tops (b b' : Board) (pl : PiecesLeft) :
  renderBoard b = renderBoard b' →
  (∀ index p sz isMove,
     canPlace index p sz isMove (mkState b pl)
     = canPlace index p sz isMove (mkState b' pl)) ∧
  checkWinner (mkState b pl) = checkWinner (mkState b' pl) ∧
  detectWinnerPlayer (mkState b pl) = detectWinnerPlayer (mkState b' pl) ∧
  (∀ p, generateAllMoves p (mkState b pl) = generateAllMoves p (mkState b' pl)).
Proof.
  intros H. split; [intros; by apply canPlace_tops|].
  split; [apply (scan_tops b b' _ H)|]. split; [apply (scan_tops b b' _ H)|].
  intros p. rewrite !generateAllMoves_spec_eq.
  unfold generateMoves_spec, placements_spec, relocations_spec. f_equal.
  - apply list_bind_ext; [|done]. intros sz.
    apply list_bind_ext; [|done]. intros i.
    cbn [piecesLeft]. by rewrite (canPlace_tops b b' pl _ _ _ _ H).
  - apply list_bind_ext; [|done]. intros from.
    apply list_bind_ext; [|done]. intros to.
    unfold topAt. cbn [board]. rewrite (renderBoard_top b b' from H).
    destruct (top (b' !!! from)) as [t|]; [|done].
    by rewrite (canPlace_tops b b' pl _ _ _ _ H).
Qed.

Lemma rules_see_only_tops_witness :
  generateAllMoves O coveredState
  = generateAllMoves O
      (mkState (vinsert 0%fin [mkPiece O medium] (vreplicate 9 []))
         (piecesLeft coveredState)).
Proof.
  apply (rules_see_only_tops (board coveredState)
           (vinsert 0%fin [mkPiece O medium] (vreplicate 9 []))
           (piecesLeft coveredState) eq_refl).
Defined.

(** ** The pieces are conserved *)

Lemma piecesIn_push p sz st pc :
  piecesIn p sz (push st pc)
  = (piecesIn p sz st + if bool_decide (pc = mkPiece p sz) then 1 else 0)%nat.
Proof.
  unfold piecesIn, push. rewrite filter_app, length_app. f_equal.
  rewrite filter_cons, filter_nil. by repeat case_decide.
Qed.

Lemma piecesOnBoard_vinsert p sz (b : Board) j st :
  (piecesOnBoard p sz (vinsert j st b) + piecesIn p sz (b !!! j)
   = piecesOnBoard p sz b + piecesIn p sz st)%nat.
Proof.
  unfold piecesOnBoard, cells. inv_vec b. intros s0 s1 s2 s3 s4 s5 s6 s7 s8.
  cell_cases j by (simpl; lia).
Qed.

Lemma step_pieces_conserved s p m s' :
  (∀ q sz, 0 <= left_get (piecesLeft s) q sz ∧
     Z.of_nat (piecesOnBoard q sz (board s)) + left_get (piecesLeft s) q sz = 2) →
  legal s p m = true → applyMove m p s = Some (tt, s') →
  ∀ q sz, 0 <= left_get (piecesLeft s') q sz ∧
     Z.of_nat (piecesOnBoard q sz (board s')) + left_get (piecesLeft s') q sz = 2.
Proof.
  intros Hacc Hlegal Ha q sz'. destruct (Hacc q sz') as [Hge Hsum].
  destruct s as [b pl]. destruct m as [index sz|from to sz];
    unfold applyMove in Ha; cbn [board piecesLeft legal] in *.
  - injection Ha as <-. cbn [board piecesLeft].
    pose proof (piecesOnBoard_vinsert q sz' b index
                  (push (b !!! index) (mkPiece p sz))) as Hins.
    rewrite piecesIn_push in Hins.
    rewrite canPlace_topRank, andb_true_iff in Hlegal.
    destruct Hlegal as [_ Hpos]. cbn [orb piecesLeft] in Hpos.
    apply negb_true_iff, Z.leb_gt in Hpos.
    destruct (decide (mkPiece p sz = mkPiece q sz')) as [[= -> ->]|Hne].
    + rewrite bool_decide_eq_true_2 in Hins by done.
      rewrite left_get_set. lia.
    + rewrite bool_decide_eq_false_2 in Hins by done.
      rewrite left_get_set_ne by congruence. lia.
  - destruct (pop (b !!! from)) as [[mv|] rest] eqn:Hpop; [|done].
    injection Ha as <-. cbn [board piecesLeft].
    pose proof (pop_Some _ _ _ Hpop) as Hst.
    pose proof (piecesOnBoard_vinsert q sz' b from rest) as H1.
    pose proof (piecesOnBoard_vinsert q sz' (vinsert from rest b) to
                  (push (vinsert from rest b !!! to) mv)) as H2.
    rewrite Hst, piecesIn_push in H1. rewrite piecesIn_push in H2. lia.
Qed.

(** X4: the pieces are conserved and the counts stay in range. In every
    state reached from the initial state by legal moves, for each player
    and each size the count left in the inventory plus the number of such
    pieces in the stacks of the board is 2, and the count is between 0 and
    2: [piecesLeft] never goes negative. *)
Theorem reachable_pieces_conserved (s : State) :
  reachable s →
  ∀ p sz,
    0 <= left_get (piecesLeft s) p sz <= 2 ∧
    Z.of_nat (piecesOnBoard p sz (board s)) + left_get (piecesLeft s) p sz = 2.
Proof.
  intros Hreach.
  assert (H : ∀ q sz, 0 <= left_get (piecesLeft s) q sz ∧
     Z.of_nat (piecesOnBoard q sz (board s)) + left_get (piecesLeft s) q sz = 2).
  { induction Hreach as [|s p m s' _ IH Hlegal Ha].
    - by intros [] [].
    - by apply (step_pieces_conserved s p m s'). }
  intros p sz. destruct (H p sz). split; [lia|done].
Qed.

Lemma reachable_pieces_conserved_witness :
  reachable centreState ∧
  0 <= left_get (piecesLeft centreState) X small <= 2 ∧
  Z.of_nat (piecesOnBoard X small (board centreState))
  + left_get (piecesLeft centreState) X small = 2.
Proof.
  split; [exact centreState_reachable|].
  exact (reachable_pieces_conserved centreState centreState_reachable X small).
Defined.

(** X5: in play there is always a legal move. In every state reached from
    the initial state by legal moves, [generateAllMoves] returns a
    non-empty list for either player (a large piece is always left to place
    or on top somewhere, and at most four cells show a large piece); so the
    tests [!moves.length] of [botMove] and [minimax] never succeed there. *)
Theorem in_play_always_a_move (s : State) (p : Player) :
  reachable s →
  generateAllMoves p s ≠ [] ∧
  (∀ rnd g g', state g = s → ended g = None → botMove rnd g = Some g' →
     ended g' ≠ Some msgDraw).
Proof.
  intros Hreach. split; [by apply reachable_has_move|].
  intros rnd g g' <- Hended. unfold botMove.
  pose proof (reachable_has_move (state g) O Hreach) as Hne.
  rewrite bool_decide_eq_false_2 by done.
  destruct (botMove_select _ _ _ _ _) as [[[m|] s1]|]; [|done..].
  destruct (applyMove m O s1) as [[[] s2]|]; [|done].
  destruct (checkWinner s2); intros [= <-]; cbn; [done|].
  by rewrite Hended.
Qed.

Lemma in_play_always_a_move_witness :
  reachable centreState ∧ generateAllMoves O centreState ≠ [].
Proof.
  split; [exact centreState_reachable|].
  exact (proj1 (in_play_always_a_move centreState O centreState_reachable)).
Defined.

(** ** Completing a line *)

Lemma top_after_move s p m s' :
  legal s p m = true → applyMove m p s = Some (tt, s') →
  ∃ t, topAt (board s') (destination m) = Some t ∧ player t = p.
Proof.
  intros Hlegal Ha. destruct m as [index sz|from to sz];
    unfold applyMove in Ha; cbn [destination].
  - injection Ha as <-. exists (mkPiece p sz). unfold topAt. cbn [board].
    by rewrite vlookup_insert, top_push.
  - apply legal_move_inv in Hlegal as (t & Et & Hp & _).
    destruct (pop (board s !!! from)) as [[mv|] rest] eqn:Hpop; [|done].
    injection Ha as <-. apply pop_Some in Hpop.
    unfold topAt in *. rewrite Hpop, top_push in Et. injection Et as ->.
    exists t. cbn [board]. by rewrite vlookup_insert, top_push.
Qed.

(** X6: completing a line wins. When a player makes a legal move after
    which every cell of one of the eight lines is either the destination of
    the move or a cell the move does not touch that already showed a piece
    of the player, [checkWinner] is true in the new state and
    [detectWinnerPlayer] names a winner. *)
Theorem completing_line_wins (s s' : State) (p : Player) (m : Move)
  (c1 c2 c3 : Cell) :
  (c1, c2, c3) ∈ lines8 →
  legal s p m = true →
  applyMove m p s = Some (tt, s') →
  (∀ c, c ∈ [c1; c2; c3] →
     c = destination m ∨
     (¬ touches m c ∧ ∃ t, topAt (board s) c = Some t ∧ player t = p)) →
  lineWon (board s') (c1, c2, c3) ∧
  checkWinner s' = true ∧ is_Some (detectWinnerPlayer s').
Proof.
  intros Hline Hlegal Ha Hcells.
  assert (Hown : ∀ c, c ∈ [c1; c2; c3] →
            ∃ t, topAt (board s') c = Some t ∧ player t = p).
  { intros c Hc. destruct (Hcells c Hc) as [->|(Hnt & t & Et & Hp)].
    - by apply (top_after_move s p m s').
    - exists t. split; [|done]. unfold topAt in *.
      by rewrite (applyMove_frame_board m p s s' c Ha Hnt). }
  destruct (Hown c1) as (A & HA & HpA); [repeat constructor|].
  destruct (Hown c2) as (B & HB & HpB); [repeat constructor|].
  destruct (Hown c3) as (C & HC & HpC); [repeat constructor|].
  assert (Hwon : lineWon (board s') (c1, c2, c3)).
  { exists A, B, C. repeat split; congruence. }
  assert (Hcheck : checkWinner s' = true).
  { unfold checkWinner. rewrite wins_lines8. apply checkWinner_scan_iff.
    by exists (c1, c2, c3). }
  split; [done|]. split; [done|]. by apply detect_is_Some_check.
Qed.

Lemma completing_line_wins_witness :
  ∃ s', applyMove (place 2%fin large) O threatState = Some (tt, s') ∧
        checkWinner s' = true.
Proof.
  eexists. split; [reflexivity|].
  eapply (completing_line_wins threatState _ O (place 2%fin large)
            0%fin 1%fin 2%fin).
  - repeat constructor.
  - reflexivity.
  - reflexivity.
  - intros c Hc. repeat (apply elem_of_cons in Hc as [->|Hc]).
    + right. split; [by intros [=]|]. by eexists.
    + right. split; [by intros [=]|]. by eexists.
    + by left.
    + by apply elem_of_nil in Hc.
Defined.

(** ** The heuristic searches *)

Lemma find_split {A} (f : A → bool) l :
  match List.find f l with
  | Some x => ∃ pre post, l = pre ++ x :: post ∧ f x = true ∧
                          ∀ y, y ∈ pre → f y = false
  | None => ∀ y, y ∈ l → f y = false
  end.
Proof.
  induction l as [|a l IH]; simpl.
  - intros y Hy. by apply elem_of_nil in Hy.
  - destruct (f a) eqn:Ea.
    + exists [], l. split; [done|]. split; [done|].
      intros y Hy. by apply elem_of_nil in Hy.
    + destruct (List.find f l) as [x|].
      * destruct IH as (pre & post & -> & Hx & Hpre).
        exists (a :: pre), post. split; [done|]. split; [done|].
        intros y [->|Hy]%elem_of_cons; auto.
      * intros y [->|Hy]%elem_of_cons; auto.
Qed.

Lemma winsAfter_false p s m :
  winsAfter p s m = false →
  ∀ s1, applyMove m p s = Some (tt, s1) → checkWinner s1 = false.
Proof.
  unfold winsAfter. intros H s1 Ha. by rewrite (after_apply _ _ _ _ Ha) in H.
Qed.

Lemma winsAfter_true p s m :
  m ∈ generateAllMoves p s → winsAfter p s m = true →
  ∃ s1, applyMove m p s = Some (tt, s1) ∧ checkWinner s1 = true.
Proof.
  intros Hin H.
  destruct (apply_undo m p s (generated_applicable _ _ _ Hin)) as (s1 & Ha & _).
  exists s1. split; [done|]. unfold winsAfter in H.
  by rewrite (after_apply _ _ _ _ Ha) in H.
Qed.

(** X7: [findWinningMoveGeneric] tries the generated moves in order on the
    live board and leaves the board and the inventories exactly as they
    were. It returns the first generated move after which [checkWinner] is
    true (a complete line of either owner), and null only when no generated
    move has that effect. *)
Theorem findWinning_first_win (p : Player) (s : State) :
  ∃ r,
    findWinningMoveGeneric p s = Some (r, s) ∧
    match r with
    | Some m =>
        ∃ pre post s1,
          generateAllMoves p s = pre ++ m :: post ∧
          applyMove m p s = Some (tt, s1) ∧ checkWinner s1 = true ∧
          ∀ x, x ∈ pre →
            ∀ s2, applyMove x p s = Some (tt, s2) → checkWinner s2 = false
    | None =>
        ∀ x, x ∈ generateAllMoves p s →
          ∀ s2, applyMove x p s = Some (tt, s2) → checkWinner s2 = false
    end.
Proof.
  exists (winningMove_spec p s). split; [apply findWinningMoveGeneric_spec|].
  unfold winningMove_spec.
  pose proof (find_split (winsAfter p s) (generateAllMoves p s)) as H.
  destruct (List.find _ _) as [m|].
  - destruct H as (pre & post & Hsplit & Hm & Hpre).
    destruct (winsAfter_true p s m) as (s1 & Ha & Hw); [|done|].
    { rewrite Hsplit. apply elem_of_app. right. left. }
    exists pre, post, s1. repeat split; try done.
    intros x Hx. by apply winsAfter_false, Hpre.
  - intros x Hx. by apply winsAfter_false, H.
Qed.

(** X8: [findBlockingMoveGeneric] leaves the board and the inventories as
    they were. It returns null when the opponent has no move that wins at
    once. Otherwise it returns the first generated move of the bot after
    which [findWinningMoveGeneric] finds nothing for the opponent, and null
    when every generated move leaves the opponent such a move. *)
Theorem findBlocking_first_block (bot : Player) (s : State) :
  let opponent := opponentOf bot in
  ∃ r threat,
    findWinningMoveGeneric opponent s = Some (threat, s) ∧
    findBlockingMoveGeneric bot s = Some (r, s) ∧
    (threat = None → r = None) ∧
    match r with
    | Some m =>
        ∃ pre post s1,
          generateAllMoves bot s = pre ++ m :: post ∧
          applyMove m bot s = Some (tt, s1) ∧
          findWinningMoveGeneric opponent s1 = Some (None, s1) ∧
          ∀ x, x ∈ pre →
            ∀ s2, applyMove x bot s = Some (tt, s2) →
              ∃ w, findWinningMoveGeneric opponent s2 = Some (Some w, s2)
    | None =>
        is_Some threat →
        ∀ x, x ∈ generateAllMoves bot s →
          ∀ s2, applyMove x bot s = Some (tt, s2) →
            ∃ w, findWinningMoveGeneric opponent s2 = Some (Some w, s2)
    end.
Proof.
  intros opponent.
  exists (blockingMove_spec bot s), (winningMove_spec opponent s).
  split; [apply findWinningMoveGeneric_spec|].
  split; [apply findBlockingMoveGeneric_spec|].
  unfold blockingMove_spec. fold opponent.
  assert (Hno : ∀ x, blocksAfter bot s x = false →
            ∀ s2, applyMove x bot s = Some (tt, s2) →
              ∃ w, findWinningMoveGeneric opponent s2 = Some (Some w, s2)).
  { intros x Hx s2 Ha. unfold blocksAfter in Hx.
    rewrite (after_apply _ _ _ _ Ha) in Hx. fold opponent in Hx.
    rewrite findWinningMoveGeneric_spec.
    destruct (winningMove_spec opponent s2) as [w|]; [by exists w|done]. }
  destruct (winningMove_spec opponent s) as [w0|]; [|by split].
  split; [done|].
  pose proof (find_split (blocksAfter bot s) (generateAllMoves bot s)) as H.
  destruct (List.find _ _) as [m|].
  - destruct H as (pre & post & Hsplit & Hm & Hpre).
    assert (Hin : m ∈ generateAllMoves bot s).
    { rewrite Hsplit. apply elem_of_app. right. left. }
    destruct (apply_undo m bot s (generated_applicable _ _ _ Hin)) as (s1 & Ha & _).
    exists pre, post, s1. repeat split; try done.
    + unfold blocksAfter in Hm. rewrite (after_apply _ _ _ _ Ha) in Hm.
      fold opponent in Hm. rewrite findWinningMoveGeneric_spec.
      by destruct (winningMove_spec opponent s1).
    + intros x Hx. by apply Hno, Hpre.
  - intros _ x Hx. by apply Hno, H.
Qed.

(** ** The range of the minimax scores *)

Lemma minimax_loop_range rec isMax p moves s lo hi :
  (∀ a b s1, ∃ v, rec a b s1 = Some (Int v, s1) ∧ lo <= v <= hi) →
  Forall (applicable s) moves →
  ∀ best alpha beta,
    (best = (if isMax : bool then NegInf else PosInf) ∨
     ∃ b, best = Int b ∧ lo <= b <= hi) →
    (moves ≠ [] ∨ ∃ b, best = Int b ∧ lo <= b <= hi) →
    ∃ v, minimax_loop rec isMax p moves best alpha beta s = Some (Int v, s) ∧
         lo <= v <= hi.
Proof.
  intros Hrec. induction 1 as [|m rest Hm _ IH]; intros best alpha beta Hb Hfin.
  - destruct Hfin as [?|(b & -> & Hr)]; [done|]. by exists b.
  - destruct (apply_undo m p s Hm) as (s' & Ha & Hu).
    destruct (Hrec alpha beta s') as (v & Hv & Hvr).
    cbn [minimax_loop].
    rewrite (run_apply_undo m p _ _ s s' (Int v) Ha Hu Hv).
    assert (∃ w, (if isMax then Num_max best (Int v) else Num_min best (Int v))
                 = Int w ∧ lo <= w <= hi) as (w & Hw & Hwr).
    { destruct Hb as [->|(b & -> & Hbr)].
      - exists v. by destruct isMax.
      - destruct isMax; unfold Num_max, Num_min, Num_le;
          destruct (b <=? v); eauto. }
    rewrite Hw. destruct (Num_le _ _); [by exists w|].
    apply IH; right; by exists w.
Qed.

Lemma minimax_fuel_range0 fuel :
  ∀ depth isMax bot human alpha beta limit s,
    (Z.to_nat (limit - depth) < fuel)%nat → depth <= 100 → limit <= 100 →
    ∃ v, minimax_fuel fuel depth isMax bot human alpha beta limit s
         = Some (Int v, s) ∧
         -100 + depth <= v <= 100 - depth.
Proof.
  induction fuel as [|fuel IH];
    intros depth isMax bot human alpha beta limit s Hfuel Hd Hl; [lia|].
  cbn [minimax_fuel]. rewrite run_bind, run_gets.
  destruct (bool_decide (_ = Some bot)).
  { eexists. split; [done|]. lia. }
  destruct (bool_decide (_ = Some human)).
  { eexists. split; [done|]. lia. }
  destruct (depth >=? limit) eqn:Hge.
  { exists 0. split; [done|]. lia. }
  rewrite Z.geb_leb in Hge. apply Z.leb_gt in Hge.
  rewrite run_bind, run_gets.
  destruct (bool_decide (_ = [])) eqn:Hnil.
  { exists 0. split; [done|]. lia. }
  apply bool_decide_eq_false in Hnil.
  destruct (minimax_loop_range
              (λ a b, minimax_fuel fuel (depth + 1) (negb isMax) bot human a b limit)
              isMax (if isMax then bot else human)
              (generateAllMoves (if isMax then bot else human) s) s
              (-100 + (depth + 1)) (100 - (depth + 1)))
    with (best := if isMax then NegInf else PosInf) (alpha := alpha) (beta := beta)
    as (v & Hv & Hr).
  - intros a b s1. apply IH; lia.
  - apply generated_all_applicable.
  - by left.
  - by left.
  - exists v. split; [exact Hv|]. lia.
Qed.

Lemma minimax_fuel_range fuel :
  ∀ depth isMax bot human alpha beta limit s,
    (Z.to_nat (limit - depth) < fuel)%nat → depth < 100 → limit <= 100 →
    ∃ v, minimax_fuel fuel depth isMax bot human alpha beta limit s
         = Some (Int v, s) ∧
         -100 + depth <= v <= 100 - depth ∧
         (v = 100 - depth ↔ detectWinnerPlayer s = Some bot) ∧
         (v = -100 + depth ↔
            detectWinnerPlayer s ≠ Some bot ∧ detectWinnerPlayer s = Some human).
Proof.
  intros depth isMax bot human alpha beta limit s Hfuel Hd Hl.
  destruct fuel as [|fuel]; [lia|].
  cbn [minimax_fuel]. rewrite run_bind, run_gets.
  destruct (decide (detectWinnerPlayer s = Some bot)) as [Hb|Hb].
  { rewrite bool_decide_eq_true_2 by done. eexists. split; [done|].
    split; [lia|]. split; [done|]. split; [lia|tauto]. }
  rewrite bool_decide_eq_false_2 by done.
  destruct (decide (detectWinnerPlayer s = Some human)) as [Hh|Hh].
  { rewrite bool_decide_eq_true_2 by done. eexists. split; [done|].
    split; [lia|]. split; [|done]. split; [lia|done]. }
  rewrite bool_decide_eq_false_2 by done.
  assert (Hzero : ∃ v, (mret (Int 0) : M Num) s = Some (Int v, s) ∧
    -100 + depth <= v <= 100 - depth ∧
    (v = 100 - depth ↔ detectWinnerPlayer s = Some bot) ∧
    (v = -100 + depth ↔
       detectWinnerPlayer s ≠ Some bot ∧ detectWinnerPlayer s = Some human)).
  { exists 0. split; [done|]. split; [lia|]. split; split; try lia; tauto. }
  destruct (depth >=? limit) eqn:Hge; [exact Hzero|].
  rewrite Z.geb_leb in Hge. apply Z.leb_gt in Hge.
  rewrite run_bind, run_gets.
  destruct (bool_decide (_ = [])) eqn:Hnil; [exact Hzero|].
  apply bool_decide_eq_false in Hnil.
  destruct (minimax_loop_range
              (λ a b, minimax_fuel fuel (depth + 1) (negb isMax) bot human a b limit)
              isMax (if isMax then bot else human)
              (generateAllMoves (if isMax then bot else human) s) s
              (-100 + (depth + 1)) (100 - (depth + 1)))
    with (best := if isMax then NegInf else PosInf) (alpha := alpha) (beta := beta)
    as (v & Hv & Hr).
  - intros a b s1. apply minimax_fuel_range0; lia.
  - apply generated_all_applicable.
  - by left.
  - by left.
  - exists v. split; [exact Hv|]. split; [lia|]. split; split; try lia; tauto.
Qed.

(** X9: the search returns, gives the live board back, and its scores are
    in range. For every state, window and arguments, [minimax] returns a
    finite score and leaves the board and the inventories exactly as they
    were, and any larger amount of fuel gives the same result. With
    [depth < 100] and [limit <= 100] the score lies between [-100 + depth]
    and [100 - depth]; it is [100 - depth] exactly when the bot has already
    won in the state, and [-100 + depth] exactly when the human has (and
    the bot has not). *)
Theorem minimax_restores_and_range (depth : Z) (isMax : bool)
  (bot human : Player) (alpha beta : Num) (limit : Z) (s : State) :
  ∃ v,
    minimax depth isMax bot human alpha beta limit s = Some (Int v, s) ∧
    (∀ fuel, (Z.to_nat (limit - depth) < fuel)%nat →
       minimax_fuel fuel depth isMax bot human alpha beta limit s
       = Some (Int v, s)) ∧
    (depth < 100 → limit <= 100 →
       -100 + depth <= v <= 100 - depth ∧
       (v = 100 - depth ↔ detectWinnerPlayer s = Some bot) ∧
       (v = -100 + depth ↔
          detectWinnerPlayer s ≠ Some bot ∧ detectWinnerPlayer s = Some human)).
Proof.
  destruct (minimax_total depth isMax bot human alpha beta limit s) as [v Hv].
  exists v. split; [exact Hv|]. split.
  - intros fuel Hfuel. rewrite <- Hv. unfold minimax.
    apply minimax_fuel_enough; lia.
  - intros Hd Hl.
    destruct (minimax_fuel_range (S (Z.to_nat (limit - depth))) depth isMax bot
                human alpha beta limit s) as (w & Hw & Hr); [lia..|].
    unfold minimax in Hv. rewrite Hv in Hw. by injection Hw as ->.
Qed.

Lemma onePly_range bot s m :
  applicable s m →
  ∃ v s1, applyMove m bot s = Some (tt, s1) ∧ onePly bot s m = Some (Int v) ∧
          -99 <= v <= 99 ∧ (v = 99 ↔ detectWinnerPlayer s1 = Some bot).
Proof.
  intros Hm. destruct (onePly_total bot s m Hm) as (v & s1 & Ha & _ & Hv & Hone).
  destruct (minimax_fuel_range 4 1 false bot (opponentOf bot) NegInf PosInf 4 s1)
    as (w & Hw & Hr & Hwin & _); [simpl; lia|lia..|].
  change (minimax_fuel 4 1 false bot (opponentOf bot) NegInf PosInf 4 s1)
    with (minimax 1 false bot (opponentOf bot) NegInf PosInf 4 s1) in Hw.
  rewrite Hv in Hw. injection Hw as <-.
  exists v, s1. repeat split; try done; try lia; apply Hwin.
Qed.

(** X10: the minimax driver never misses a win in one move. When some
    generated move of the bot leads to a state in which
    [detectWinnerPlayer] names the bot, [minimaxBestMove] returns such a
    move: the first one in generation order, its score being 99, above
    every score of a move that does not win at once. *)
Theorem minimaxBestMove_takes_win (bot : Player) (s : State) (m : Move)
  (s1 : State) :
  m ∈ generateAllMoves bot s →
  applyMove m bot s = Some (tt, s1) →
  detectWinnerPlayer s1 = Some bot →
  ∃ m' s1' pre post,
    minimaxBestMove bot s = Some (Some m', s) ∧
    applyMove m' bot s = Some (tt, s1') ∧
    detectWinnerPlayer s1' = Some bot ∧
    onePly bot s m' = Some (Int 99) ∧
    generateAllMoves bot s = pre ++ m' :: post ∧
    ∀ x s2, x ∈ pre → applyMove x bot s = Some (tt, s2) →
            detectWinnerPlayer s2 ≠ Some bot.
Proof.
  intros Hin Ha Hwin.
  destruct (minimaxBestMove_loop_spec bot s _ (generated_all_applicable bot s)
              NegInf None) as (r & Hr & Hcase).
  assert (Hrun : minimaxBestMove bot s = Some (r, s)).
  { unfold minimaxBestMove. by rewrite run_bind, run_gets. }
  destruct (onePly_range bot s m (generated_applicable _ _ _ Hin))
    as (vm & s1m & Ham & Hvm & Hrm & Hwm).
  assert (s1m = s1) as -> by congruence.
  assert (vm = 99) as -> by by apply Hwm.
  destruct Hcase as [[_ Hall]|(pre & m' & post & v & Hsplit & -> & Hm' & _ & Hpre & Hpost)].
  { destruct (Hall m Hin) as (w & Hw & Hle). done. }
  assert (Hin' : m' ∈ generateAllMoves bot s).
  { rewrite Hsplit. apply elem_of_app. right. left. }
  destruct (onePly_range bot s m' (generated_applicable _ _ _ Hin'))
    as (v' & s1' & Ha' & Hv' & Hr' & Hw').
  assert (v' = v) as -> by congruence.
  assert (99 <= v).
  { rewrite Hsplit in Hin. apply elem_of_app in Hin as [Hin|Hin].
    - destruct (Hpre m Hin) as (w & Hw & Hlt). assert (w = 99) by congruence. lia.
    - apply elem_of_cons in Hin as [->|Hin].
      + assert (v = 99) by congruence. lia.
      + destruct (Hpost m Hin) as (w & Hw & Hle).
        assert (w = 99) by congruence. lia. }
  assert (v = 99) as -> by lia.
  exists m', s1', pre, post. repeat split; try done; [by apply Hw'|].
  intros x s2 Hx Hax Hwx.
  destruct (Hpre x Hx) as (w & Hw & Hlt).
  assert (Hinx : x ∈ generateAllMoves bot s).
  { rewrite Hsplit. apply elem_of_app. by left. }
  destruct (onePly_range bot s x (generated_applicable _ _ _ Hinx))
    as (vx & s2' & Hax' & Hvx & _ & Hwinx).
  assert (s2' = s2) as -> by congruence.
  assert (vx = 99) by by apply Hwinx.
  assert (vx = w) by congruence. lia.
Qed.

Lemma minimaxBestMove_takes_win_witness :
  ∃ m' s1', minimaxBestMove O threatState = Some (Some m', threatState) ∧
            applyMove m' O threatState = Some (tt, s1') ∧
            detectWinnerPlayer s1' = Some O.
Proof.
  destruct (minimaxBestMove_takes_win O threatState (place 2%fin large)
              (mkState (vinsert 2%fin [mkPiece O large] (board threatState))
                 (mkPiecesLeft (mkCounts 0 1 2) (mkCounts 1 1 1))))
    as (m' & s1' & _ & _ & H1 & H2 & H3 & _).
  - apply generated_place. reflexivity.
  - reflexivity.
  - reflexivity.
  - exists m', s1'. exact (conj H1 (conj H2 H3)).
Defined.

(** ** Pruning does not change the value *)

(** Facts about the order of the scores, by cases on the infinities. *)
Ltac num_order :=
  intros;
  repeat match goal with H : _ ∧ _ |- _ => destruct H end;
  unfold Num_gt, Num_max, Num_min in *;
  repeat match goal with x : Num |- _ => destruct x end;
  unfold Num_le in *;
  repeat match goal with
         | H : context [?x <=? ?y] |- _ => destruct (Z.leb_spec x y)
         | |- context [?x <=? ?y] => destruct (Z.leb_spec x y)
         end;
  simplify_eq; repeat split; try done;
  try lia; try (f_equal; lia); try (exfalso; lia).

Lemma maximum_spec l :
  l ≠ [] →
  (∀ e, e ∈ l → e <= maximum l) ∧ maximum l ∈ l.
Proof.
  destruct l as [|x r]; [done|]. intros _. unfold maximum.
  revert x. induction r as [|y r IH]; intros x; simpl.
  - split; [|left]. by intros e ->%list_elem_of_singleton.
  - destruct (IH (Z.max x y)) as [Hle Hin]. split.
    + intros e [->|[->|He]%elem_of_cons]%elem_of_cons.
      * assert (Z.max x y <= fold_left Z.max r (Z.max x y)) by (apply Hle; left).
        lia.
      * assert (Z.max x y <= fold_left Z.max r (Z.max x y)) by (apply Hle; left).
        lia.
      * apply Hle. by right.
    + apply elem_of_cons in Hin as [Hin|Hin].
      * rewrite Hin. destruct (Z.max_spec x y) as [[_ ->]|[_ ->]];
          [right; left|left].
      * right. by right.
Qed.

Lemma minimum_spec l :
  l ≠ [] →
  (∀ e, e ∈ l → minimum l <= e) ∧ minimum l ∈ l.
Proof.
  destruct l as [|x r]; [done|]. intros _. unfold minimum.
  revert x. induction r as [|y r IH]; intros x; simpl.
  - split; [|left]. by intros e ->%list_elem_of_singleton.
  - destruct (IH (Z.min x y)) as [Hle Hin]. split.
    + intros e [->|[->|He]%elem_of_cons]%elem_of_cons.
      * assert (fold_left Z.min r (Z.min x y) <= Z.min x y) by (apply Hle; left).
        lia.
      * assert (fold_left Z.min r (Z.min x y) <= Z.min x y) by (apply Hle; left).
        lia.
      * apply Hle. by right.
    + apply elem_of_cons in Hin as [Hin|Hin].
      * rewrite Hin. destruct (Z.min_spec x y) as [[_ ->]|[_ ->]];
          [left|right; left].
      * right. by right.
Qed.

(** The loop at a maximizing node. [P] holds the values without pruning of
    the children already seen, [E m] the value of the child after [m]. *)
Lemma alphabeta_loop_max rec p s beta (E : Move → Z) :
  (∀ m s1 a, applyMove m p s = Some (tt, s1) → Num_le beta a = false →
     ∃ v, rec a beta s1 = Some (Int v, s1) ∧ failSoft a beta v (E m)) →
  ∀ moves, Forall (applicable s) moves →
  ∀ alpha best a (P : list Z),
    best ≠ PosInf → a = Num_max alpha best → Num_le beta a = false →
    (∀ e, e ∈ P → Num_le (Int e) best = true) →
    (Num_le best alpha = false → ∃ e, e ∈ P ∧ Num_le best (Int e) = true) →
    (moves ≠ [] ∨ ∃ b, best = Int b) →
    ∃ v,
      minimax_loop rec true p moves best a beta s = Some (Int v, s) ∧
      (Num_le (Int v) alpha = true → ∀ e, e ∈ P ++ (E <$> moves) → e <= v) ∧
      (Num_le beta (Int v) = true → ∃ e, e ∈ P ++ (E <$> moves) ∧ v <= e) ∧
      (Num_le (Int v) alpha = false → Num_le beta (Int v) = false →
         (∀ e, e ∈ P ++ (E <$> moves) → e <= v) ∧
         ∃ e, e ∈ P ++ (E <$> moves) ∧ v <= e).
Proof.
  intros Hrec moves Hmoves.
  induction Hmoves as [|m rest Hm _ IH];
    intros alpha best a P Hbest Ha Hwin I4 I3 Hfin.
  - destruct Hfin as [?|[b ->]]; [done|]. exists b. split; [done|].
    rewrite fmap_nil, app_nil_r.
    assert (Hup : ∀ e, e ∈ P → e <= b).
    { intros e He. specialize (I4 e He). by apply Z.leb_le in I4. }
    split; [by intros _|]. split.
    + intros Hge. exfalso. revert Ha Hwin Hge. clear. num_order.
    + intros Hlt _. split; [done|].
      destruct (I3 Hlt) as (e & He & Hle). exists e. split; [done|].
      by apply Z.leb_le in Hle.
  - destruct (apply_undo m p s Hm) as (s1 & Hap & Hun).
    destruct (Hrec m s1 a Hap Hwin) as (v & Hv & C1 & C2 & C3).
    cbn [minimax_loop].
    rewrite (run_apply_undo m p _ _ s s1 (Int v) Hap Hun Hv).
    rewrite fmap_cons.
    destruct (Num_le beta (Num_max a (Int v))) eqn:Hbr.
    + (* break *)
      assert (Hge : Num_le beta (Int v) = true).
      { revert Hwin Hbr. clear. num_order. }
      assert (Hnew : Num_max best (Int v) = Int v).
      { revert Ha Hwin Hge Hbest. clear. num_order. }
      assert (Hal : Num_le (Int v) alpha = false).
      { revert Ha Hwin Hge. clear. num_order. }
      rewrite Hnew. exists v. split; [done|].
      split; [by rewrite Hal|]. split.
      * intros _. exists (E m). split; [|by apply C2].
        apply elem_of_app. right. left.
      * intros _ Hc. by rewrite Hge in Hc.
    + (* no break *)
      assert (Hlt : Num_le beta (Int v) = false).
      { revert Hbr. clear. num_order. }
      assert (Hev : E m <= v).
      { destruct (Num_le (Int v) a) eqn:Hva; [by apply C1|].
        rewrite (C3 eq_refl Hlt). lia. }
      destruct (IH alpha (Num_max best (Int v)) (Num_max a (Int v)) (P ++ [E m]))
        as (w & Hw & W1 & W2 & W3).
      * revert Hbest. clear. num_order.
      * revert Ha. clear. num_order.
      * exact Hbr.
      * intros e [He|He]%elem_of_app;
          [|apply list_elem_of_singleton in He as ->].
        -- specialize (I4 e He). revert I4. clear. num_order.
        -- revert Hev. clear. num_order.
      * intros Hgt.
        destruct (Num_le (Int v) best) eqn:Hvb.
        -- assert (Hsame : Num_max best (Int v) = best).
           { revert Hvb Hbest. clear. num_order. }
           rewrite Hsame in *. destruct (I3 Hgt) as (e & He & Hle).
           exists e. split; [apply elem_of_app; by left|done].
        -- assert (Hnew : Num_max best (Int v) = Int v).
           { revert Hvb. clear. num_order. }
           rewrite Hnew in *.
           assert (Hva : Num_le (Int v) a = false).
           { revert Ha Hvb Hgt. clear. num_order. }
           exists (E m). split; [apply elem_of_app; right; left|].
           rewrite (C3 Hva Hlt). apply Z.leb_refl.
      * right. revert Hbest. clear. num_order; eauto.
      * rewrite <- app_assoc in W1, W2, W3. exists w. by split.
Qed.

(** The loop at a minimizing node. *)
Lemma alphabeta_loop_min rec p s alpha (E : Move → Z) :
  (∀ m s1 b, applyMove m p s = Some (tt, s1) → Num_le b alpha = false →
     ∃ v, rec alpha b s1 = Some (Int v, s1) ∧ failSoft alpha b v (E m)) →
  ∀ moves, Forall (applicable s) moves →
  ∀ beta best b (P : list Z),
    best ≠ NegInf → b = Num_min beta best → Num_le b alpha = false →
    (∀ e, e ∈ P → Num_le best (Int e) = true) →
    (Num_le beta best = false → ∃ e, e ∈ P ∧ Num_le (Int e) best = true) →
    (moves ≠ [] ∨ ∃ z, best = Int z) →
    ∃ v,
      minimax_loop rec false p moves best alpha b s = Some (Int v, s) ∧
      (Num_le beta (Int v) = true → ∀ e, e ∈ P ++ (E <$> moves) → v <= e) ∧
      (Num_le (Int v) alpha = true → ∃ e, e ∈ P ++ (E <$> moves) ∧ e <= v) ∧
      (Num_le (Int v) alpha = false → Num_le beta (Int v) = false →
         (∀ e, e ∈ P ++ (E <$> moves) → v <= e) ∧
         ∃ e, e ∈ P ++ (E <$> moves) ∧ e <= v).
Proof.
  intros Hrec moves Hmoves.
  induction Hmoves as [|m rest Hm _ IH];
    intros beta best b P Hbest Hb Hwin I4 I3 Hfin.
  - destruct Hfin as [?|[z ->]]; [done|]. exists z. split; [done|].
    rewrite fmap_nil, app_nil_r.
    assert (Hlow : ∀ e, e ∈ P → z <= e).
    { intros e He. specialize (I4 e He). by apply Z.leb_le in I4. }
    split; [by intros _|]. split.
    + intros Hle. exfalso. revert Hb Hwin Hle. clear. num_order.
    + intros _ Hlt. split; [done|].
      destruct (I3 Hlt) as (e & He & Hle). exists e. split; [done|].
      by apply Z.leb_le in Hle.
  - destruct (apply_undo m p s Hm) as (s1 & Hap & Hun).
    destruct (Hrec m s1 b Hap Hwin) as (v & Hv & C1 & C2 & C3).
    cbn [minimax_loop].
    rewrite (run_apply_undo m p _ _ s s1 (Int v) Hap Hun Hv).
    rewrite fmap_cons.
    destruct (Num_le (Num_min b (Int v)) alpha) eqn:Hbr.
    + (* break *)
      assert (Hle : Num_le (Int v) alpha = true).
      { revert Hwin Hbr. clear. num_order. }
      assert (Hnew : Num_min best (Int v) = Int v).
      { revert Hb Hwin Hle Hbest. clear. num_order. }
      assert (Hbe : Num_le beta (Int v) = false).
      { revert Hb Hwin Hle. clear. num_order. }
      rewrite Hnew. exists v. split; [done|].
      split; [by rewrite Hbe|]. split.
      * intros _. exists (E m). split; [|by apply C1].
        apply elem_of_app. right. left.
      * intros Hc. by rewrite Hle in Hc.
    + (* no break *)
      assert (Hgt : Num_le (Int v) alpha = false).
      { revert Hbr. clear. num_order. }
      assert (Hev : v <= E m).
      { destruct (Num_le b (Int v)) eqn:Hvb; [by apply C2|].
        rewrite (C3 Hgt eq_refl). lia. }
      destruct (IH beta (Num_min best (Int v)) (Num_min b (Int v)) (P ++ [E m]))
        as (w & Hw & W1 & W2 & W3).
      * revert Hbest. clear. num_order.
      * revert Hb. clear. num_order.
      * exact Hbr.
      * intros e [He|He]%elem_of_app;
          [|apply list_elem_of_singleton in He as ->].
        -- specialize (I4 e He). revert I4. clear. num_order.
        -- revert Hev. clear. num_order.
      * intros Hlt.
        destruct (Num_le best (Int v)) eqn:Hvb.
        -- assert (Hsame : Num_min best (Int v) = best).
           { revert Hvb Hbest. clear. num_order. }
           rewrite Hsame in *. destruct (I3 Hlt) as (e & He & Hle).
           exists e. split; [apply elem_of_app; by left|done].
        -- assert (Hnew : Num_min best (Int v) = Int v).
           { revert Hvb. clear. num_order. }
           rewrite Hnew in *.
           assert (Hva : Num_le b (Int v) = false).
           { revert Hb Hvb Hlt. clear. num_order. }
           exists (E m). split; [apply elem_of_app; right; left|].
           rewrite (C3 Hgt Hva). apply Z.leb_refl.
      * right. revert Hbest. clear. num_order; eauto.
      * rewrite <- app_assoc in W1, W2, W3. exists w. by split.
Qed.

Lemma failSoft_exact alpha beta v : failSoft alpha beta v v.
Proof. unfold failSoft. repeat split; intros; lia. Qed.

Lemma alphabeta_fuel fuel :
  ∀ depth isMax bot human alpha beta limit s,
    (Z.to_nat (limit - depth) < fuel)%nat → Num_le beta alpha = false →
    ∃ v,
      minimax_fuel fuel depth isMax bot human alpha beta limit s = Some (Int v, s) ∧
      failSoft alpha beta v (exactValue fuel depth isMax bot human limit s).
Proof.
  induction fuel as [|fuel IH];
    intros depth isMax bot human alpha beta limit s Hfuel Hwin; [lia|].
  cbn [minimax_fuel exactValue]. rewrite run_bind, run_gets.
  destruct (bool_decide (_ = Some bot)).
  { eexists. split; [done|]. apply failSoft_exact. }
  destruct (bool_decide (_ = Some human)).
  { eexists. split; [done|]. apply failSoft_exact. }
  destruct (depth >=? limit) eqn:Hge.
  { eexists. split; [done|]. apply failSoft_exact. }
  rewrite Z.geb_leb in Hge. apply Z.leb_gt in Hge.
  rewrite run_bind, run_gets.
  destruct (bool_decide (_ = [])) eqn:Hnil.
  { eexists. split; [done|]. apply failSoft_exact. }
  apply bool_decide_eq_false in Hnil.
  set (p := if isMax then bot else human) in *.
  set (E := λ m, match after m p s with
                 | Some s1 => exactValue fuel (depth + 1) (negb isMax) bot human limit s1
                 | None => 0
                 end).
  assert (Hne : E <$> generateAllMoves p s ≠ []).
  { intros H. apply fmap_nil_inv in H. done. }
  assert (Hchild : ∀ m s1 a b, applyMove m p s = Some (tt, s1) →
            Num_le b a = false →
            ∃ v, minimax_fuel fuel (depth + 1) (negb isMax) bot human a b limit s1
                 = Some (Int v, s1) ∧ failSoft a b v (E m)).
  { intros m s1 a b Hap Hab. unfold E. rewrite (after_apply _ _ _ _ Hap).
    apply IH; [lia|done]. }
  destruct isMax.
  - destruct (alphabeta_loop_max
                (λ a b, minimax_fuel fuel (depth + 1) false bot human a b limit)
                p s beta E) with (moves := generateAllMoves p s)
      (alpha := alpha) (best := NegInf) (a := alpha) (P := @nil Z)
      as (v & Hv & W1 & W2 & W3).
    + intros m s1 a Hap Hab. by apply Hchild.
    + apply generated_all_applicable.
    + done.
    + clear. num_order.
    + done.
    + intros e He. by apply elem_of_nil in He.
    + intros Hc. exfalso. revert Hc. clear. num_order.
    + by left.
    + exists v. split; [exact Hv|]. rewrite app_nil_l in W1, W2, W3.
      destruct (maximum_spec _ Hne) as [Hmax Hin].
      split; [|split].
      * intros H. by apply W1.
      * intros H. destruct (W2 H) as (e & He & Hle). specialize (Hmax e He). lia.
      * intros H1 H2. destruct (W3 H1 H2) as (Hup & e & He & Hle).
        specialize (Hmax e He). specialize (Hup _ Hin). lia.
  - destruct (alphabeta_loop_min
                (λ a b, minimax_fuel fuel (depth + 1) true bot human a b limit)
                p s alpha E) with (moves := generateAllMoves p s)
      (beta := beta) (best := PosInf) (b := beta) (P := @nil Z)
      as (v & Hv & W1 & W2 & W3).
    + intros m s1 b Hap Hab. by apply Hchild.
    + apply generated_all_applicable.
    + done.
    + clear. num_order.
    + done.
    + intros e He. by apply elem_of_nil in He.
    + intros Hc. exfalso. revert Hc. clear. num_order.
    + by left.
    + exists v. split; [exact Hv|]. rewrite app_nil_l in W1, W2, W3.
      destruct (minimum_spec _ Hne) as [Hmin Hin].
      split; [|split].
      * intros H. destruct (W2 H) as (e & He & Hle). specialize (Hmin e He). lia.
      * intros H. by apply W1.
      * intros H1 H2. destruct (W3 H1 H2) as (Hlow & e & He & Hle).
        specialize (Hmin e He). specialize (Hlow _ Hin). lia.
Qed.

(** X11: pruning does not change the value. Called with the full window
    (alpha [-Infinity], beta [Infinity]), [minimax] returns exactly the
    value of minimax without pruning ([exactValue]: the same base cases,
    the maximum or minimum over all moves). Called with any window
    [alpha < beta] it returns that value whenever the result lies strictly
    inside the window, and otherwise a bound on it: a result at or below
    [alpha] is an upper bound, a result at or above [beta] a lower bound. *)
Theorem pruning_keeps_value (depth : Z) (isMax : bool) (bot human : Player)
  (limit : Z) (s : State) :
  let e := exactValue (S (Z.to_nat (limit - depth))) depth isMax bot human limit s in
  minimax depth isMax bot human NegInf PosInf limit s = Some (Int e, s) ∧
  ∀ alpha beta,
    Num_le beta alpha = false →
    ∃ v, minimax depth isMax bot human alpha beta limit s = Some (Int v, s) ∧
         failSoft alpha beta v e.
Proof.
  intros e. split.
  - destruct (alphabeta_fuel (S (Z.to_nat (limit - depth))) depth isMax bot human
                NegInf PosInf limit s) as (v & Hv & _ & _ & H3); [lia|done|].
    unfold minimax. rewrite Hv. subst e. by rewrite (H3 eq_refl eq_refl).
  - intros alpha beta Hwin. apply alphabeta_fuel; [lia|done].
Qed.

Lemma onePly_exact bot s m :
  applicable s m → onePly bot s m = Some (Int (exactOnePly bot s m)).
Proof.
  intros Hm. destruct (apply_undo m bot s Hm) as (s1 & Ha & _).
  unfold onePly, exactOnePly. rewrite Ha, (after_apply _ _ _ _ Ha).
  destruct (alphabeta_fuel 4 1 false bot (opponentOf bot) NegInf PosInf 4 s1)
    as (v & Hv & _ & _ & H3); [simpl; lia|done|].
  change (minimax 1 false bot (opponentOf bot) NegInf PosInf 4 s1)
    with (minimax_fuel 4 1 false bot (opponentOf bot) NegInf PosInf 4 s1).
  rewrite Hv, (H3 eq_refl eq_refl). reflexivity.
Qed.

(** X12: the move of the minimax driver is the one plain minimax would
    pick. [minimaxBestMove] returns the first generated move whose position
    has the greatest value by minimax without pruning (human to move,
    searched to depth limit 4): no generated move has a greater value and
    every move generated before it has a strictly smaller one. *)
Theorem minimaxBestMove_exact_choice (bot : Player) (s : State) :
  ∃ r,
    minimaxBestMove bot s = Some (r, s) ∧
    match r with
    | None => generateAllMoves bot s = []
    | Some m =>
        ∃ pre post,
          generateAllMoves bot s = pre ++ m :: post ∧
          (∀ x, x ∈ generateAllMoves bot s →
                exactOnePly bot s x <= exactOnePly bot s m) ∧
          (∀ x, x ∈ pre → exactOnePly bot s x < exactOnePly bot s m)
    end.
Proof.
  destruct (minimaxBestMove_loop_spec bot s _ (generated_all_applicable bot s)
              NegInf None) as (r & Hr & Hcase).
  exists r. split.
  { unfold minimaxBestMove. by rewrite run_bind, run_gets. }
  assert (Hex : ∀ x w, x ∈ generateAllMoves bot s →
            onePly bot s x = Some (Int w) → w = exactOnePly bot s x).
  { intros x w Hx Hw.
    rewrite (onePly_exact bot s x (generated_applicable _ _ _ Hx)) in Hw.
    congruence. }
  destruct Hcase as [[-> Hall]|(pre & m & post & v & Hsplit & -> & Hm & _ & Hpre & Hpost)].
  - destruct (generateAllMoves bot s) as [|x l]; [done|].
    destruct (Hall x) as (w & _ & Hle); [left|done].
  - assert (Hin : ∀ x, x ∈ pre ++ m :: post → x ∈ generateAllMoves bot s).
    { intros x. by rewrite Hsplit. }
    assert (v = exactOnePly bot s m) as ->.
    { apply Hex; [|done]. apply Hin, elem_of_app. right. left. }
    exists pre, post. split; [done|]. split.
    + intros x Hx. rewrite Hsplit in Hx.
      pose proof (Hin x Hx) as Hx'.
      apply elem_of_app in Hx as [Hx|[->|Hx]%elem_of_cons].
      * destruct (Hpre x Hx) as (w & Hw & Hlt). rewrite <- (Hex x w) by done. lia.
      * lia.
      * destruct (Hpost x Hx) as (w & Hw & Hle). rewrite <- (Hex x w) by done. lia.
    + intros x Hx. destruct (Hpre x Hx) as (w & Hw & Hlt).
      rewrite <- (Hex x w); [lia| |done]. apply Hin, elem_of_app. by left.
Qed.

(** ** What a click and a bot move do *)

Lemma other_switch p : (if bool_decide (p = X) then O else X) = other p.
Proof. by destruct p. Qed.

Lemma afterHumanMove_spec g0 :
  state (afterHumanMove g0) = state g0 ∧
  mode (afterHumanMove g0) = mode g0 ∧
  difficulty (afterHumanMove g0) = difficulty g0 ∧
  if checkWinner (state g0)
  then ended (afterHumanMove g0) = Some (msgWins (currentPlayer g0)) ∧
       currentPlayer (afterHumanMove g0) = currentPlayer g0 ∧
       selectedFrom (afterHumanMove g0) = selectedFrom g0 ∧
       botTimers (afterHumanMove g0) = botTimers g0
  else ended (afterHumanMove g0) = ended g0 ∧
       currentPlayer (afterHumanMove g0) = other (currentPlayer g0) ∧
       selectedSize (afterHumanMove g0) = None ∧
       selectedFrom (afterHumanMove g0) = None ∧
       botTimers (afterHumanMove g0) =
         if bool_decide (mode g0 = "1p"%string)
            && bool_decide (other (currentPlayer g0) = O)
         then S (botTimers g0) else botTimers g0.
Proof.
  destruct g0 as [st mo di cp ss sf en bt].
  unfold afterHumanMove, switchTurn, cancelSelectAll, endGame.
  cbn [state mode difficulty currentPlayer selectedSize selectedFrom ended
       botTimers].
  destruct (checkWinner st); [done|].
  destruct cp, (bool_decide (mo = "1p"%string)); done.
Qed.

Lemma handleCellClick_cases (index : Cell) (g : Game) :
  selection_ok g →
  let g' := handleCellClick index g in
  let p := currentPlayer g in
  mode g' = mode g ∧ difficulty g' = difficulty g ∧
  ((state g' = state g ∧ currentPlayer g' = p ∧ ended g' = ended g ∧
    botTimers g' = botTimers g) ∨
   (∃ m,
      m ∈ generateAllMoves p (state g) ∧ destination m = index ∧
      (∀ t, topAt (board (state g)) index = Some t → player t ≠ p) ∧
      applyMove m p (state g) = Some (tt, state g') ∧
      selectedFrom g' = None ∧
      if checkWinner (state g')
      then ended g' = Some (msgWins p) ∧ currentPlayer g' = p ∧
           botTimers g' = botTimers g
      else ended g' = ended g ∧ currentPlayer g' = other p ∧
           selectedSize g' = None ∧
           botTimers g' =
             if bool_decide (mode g = "1p"%string) && bool_decide (other p = O)
             then S (botTimers g) else botTimers g)).
Proof.
  intros Hsel g' p. subst g' p. unfold handleCellClick.
  destruct (bool_decide (selectedFrom g = Some index)) eqn:Hsame;
    [by repeat split; try left|].
  apply bool_decide_eq_false in Hsame.
  assert (Hafter : ∀ g0 m,
    mode g0 = mode g → difficulty g0 = difficulty g →
    currentPlayer g0 = currentPlayer g → ended g0 = ended g →
    botTimers g0 = botTimers g → selectedFrom g0 = None →
    m ∈ generateAllMoves (currentPlayer g) (state g) → destination m = index →
    (∀ t, topAt (board (state g)) index = Some t → player t ≠ currentPlayer g) →
    applyMove m (currentPlayer g) (state g) = Some (tt, state g0) →
    mode (afterHumanMove g0) = mode g ∧ difficulty (afterHumanMove g0) = difficulty g ∧
    ((state (afterHumanMove g0) = state g ∧
      currentPlayer (afterHumanMove g0) = currentPlayer g ∧
      ended (afterHumanMove g0) = ended g ∧
      botTimers (afterHumanMove g0) = botTimers g) ∨
     (∃ m,
        m ∈ generateAllMoves (currentPlayer g) (state g) ∧ destination m = index ∧
        (∀ t, topAt (board (state g)) index = Some t → player t ≠ currentPlayer g) ∧
        applyMove m (currentPlayer g) (state g) = Some (tt, state (afterHumanMove g0)) ∧
        selectedFrom (afterHumanMove g0) = None ∧
        if checkWinner (state (afterHumanMove g0))
        then ended (afterHumanMove g0) = Some (msgWins (currentPlayer g)) ∧
             currentPlayer (afterHumanMove g0) = currentPlayer g ∧
             botTimers (afterHumanMove g0) = botTimers g
        else ended (afterHumanMove g0) = ended g ∧
             currentPlayer (afterHumanMove g0) = other (currentPlayer g) ∧
             selectedSize (afterHumanMove g0) = None ∧
             botTimers (afterHumanMove g0) =
               if bool_decide (mode g = "1p"%string)
                  && bool_decide (other (currentPlayer g) = O)
               then S (botTimers g) else botTimers g))).
  { intros g0 m Hmo Hdi Hcp Hen Hbt Hsf Hin Hdest Hown Ha.
    destruct (afterHumanMove_spec g0) as (Hst & Hm' & Hd' & Hrest).
    rewrite Hm', Hd', Hst. split; [done|]. split; [done|]. right. exists m.
    split; [done|]. split; [done|]. split; [done|]. split; [done|].
    destruct (checkWinner (state g0)).
    - destruct Hrest as (-> & -> & -> & ->). rewrite Hcp, Hbt. by repeat split.
    - destruct Hrest as (-> & -> & -> & -> & ->). rewrite Hcp, Hmo, Hbt, Hen.
      by repeat split. }
  destruct (topAt (board (state g)) index) as [t|] eqn:Et.
  - destruct (bool_decide (player t = currentPlayer g)) eqn:Hown;
      [by repeat split; try left|].
    apply bool_decide_eq_false in Hown.
    assert (Hnot : ∀ t', Some t = Some t' → player t' ≠ currentPlayer g)
      by (by intros t' [= <-]).
    destruct (selectedFrom g) as [from|] eqn:Hfrom.
    + destruct (pop (board (state g) !!! from)) as [[mp|] rest] eqn:Hpop;
        [|by repeat split; try left].
      destruct (canPlace index _ _ true _) eqn:Hcan; [|by repeat split; try left].
      cbn [negb]. destruct (Hsel from Hfrom) as (t0 & Et0 & Hp0).
      pose proof (pop_Some _ _ _ Hpop) as Hst.
      assert (mp = t0) as ->.
      { unfold topAt in Et0. rewrite Hst, top_push in Et0. congruence. }
      apply (Hafter _ (move from index (size t0))); try done.
      * apply (generated_move _ _ _ _ t0); try done. congruence.
      * cbn [state]. unfold applyMove. by rewrite Hpop.
    + destruct (selectedSize g) as [sz|]; [|by repeat split; try left].
      destruct (canPlace index _ sz false _) eqn:Hcan; [|by repeat split; try left].
      cbn [negb]. apply (Hafter _ (place index sz)); try done.
      by apply generated_place.
  - assert (Hnot : ∀ t', @None Piece = Some t' → player t' ≠ currentPlayer g)
      by done.
    destruct (selectedFrom g) as [from|] eqn:Hfrom.
    + destruct (pop (board (state g) !!! from)) as [[mp|] rest] eqn:Hpop;
        [|by repeat split; try left].
      destruct (canPlace index _ _ true _) eqn:Hcan; [|by repeat split; try left].
      cbn [negb]. destruct (Hsel from Hfrom) as (t0 & Et0 & Hp0).
      pose proof (pop_Some _ _ _ Hpop) as Hst.
      assert (mp = t0) as ->.
      { unfold topAt in Et0. rewrite Hst, top_push in Et0. congruence. }
      apply (Hafter _ (move from index (size t0))); try done.
      * apply (generated_move _ _ _ _ t0); try done. congruence.
      * cbn [state]. unfold applyMove. by rewrite Hpop.
    + destruct (selectedSize g) as [sz|]; [|by repeat split; try left].
      destruct (canPlace index _ sz false _) eqn:Hcan; [|by repeat split; try left].
      cbn [negb]. apply (Hafter _ (place index sz)); try done.
      by apply generated_place.
Qed.

(** X13: what a click on a cell can do. With a well-formed selection, a
    click either changes nothing but the selection, or makes exactly one
    move of the player to move that [generateAllMoves] lists, onto the
    clicked cell, which did not show a piece of that player (a player can
    never cover an own piece by clicking). After the move the source
    selection is cleared; if [checkWinner] holds the game ends with the
    mover named as winner and the turn does not pass; otherwise the turn
    passes to the other player with both selections cleared, and a bot
    timer is set exactly when the mode is "1p" and the other player is
    [O]. *)
Theorem handleCellClick_contract (index : Cell) (g : Game) :
  selection_ok g →
  let g' := handleCellClick index g in
  let p := currentPlayer g in
  mode g' = mode g ∧ difficulty g' = difficulty g ∧
  ((state g' = state g ∧ currentPlayer g' = p ∧ ended g' = ended g ∧
    botTimers g' = botTimers g) ∨
   (∃ m,
      m ∈ generateAllMoves p (state g) ∧ destination m = index ∧
      (∀ t, topAt (board (state g)) index = Some t → player t ≠ p) ∧
      applyMove m p (state g) = Some (tt, state g') ∧
      selectedFrom g' = None ∧
      if checkWinner (state g')
      then ended g' = Some (msgWins p) ∧ currentPlayer g' = p ∧
           botTimers g' = botTimers g
      else ended g' = ended g ∧ currentPlayer g' = other p ∧
           selectedSize g' = None ∧
           botTimers g' =
             if bool_decide (mode g = "1p"%string) && bool_decide (other p = O)
             then S (botTimers g) else botTimers g)).
Proof. exact (handleCellClick_cases index g). Qed.

Lemma readyGame_selection_ok : selection_ok readyGame.
Proof. intros from H. discriminate H. Qed.

Lemma handleCellClick_contract_witness :
  selection_ok readyGame ∧
  state (handleCellClick 4%fin readyGame) = centreState ∧
  mode (handleCellClick 4%fin readyGame) = mode readyGame ∧
  difficulty (handleCellClick 4%fin readyGame) = difficulty readyGame.
Proof.
  split; [exact readyGame_selection_ok|]. split; [reflexivity|].
  destruct (handleCellClick_contract 4%fin readyGame readyGame_selection_ok)
    as (Hm & Hd & _).
  by split.
Defined.

Lemma botMove_cases (rnd : nat) (g : Game) :
  ∃ g',
    botMove rnd g = Some g' ∧
    mode g' = mode g ∧ difficulty g' = difficulty g ∧
    botTimers g' = botTimers g ∧
    (generateAllMoves O (state g) = [] ↔ g' = endGame msgDraw g) ∧
    (generateAllMoves O (state g) ≠ [] →
     ∃ m,
       m ∈ generateAllMoves O (state g) ∧
       applyMove m O (state g) = Some (tt, state g') ∧
       if checkWinner (state g')
       then ended g' = Some (msgBotWins (difficulty g)) ∧
            currentPlayer g' = currentPlayer g ∧
            selectedSize g' = selectedSize g ∧ selectedFrom g' = selectedFrom g
       else ended g' = ended g ∧ currentPlayer g' = other (currentPlayer g) ∧
            selectedSize g' = None ∧ selectedFrom g' = None).
Proof.
  unfold botMove.
  destruct (decide (generateAllMoves O (state g) = [])) as [Hnil|Hne].
  - rewrite bool_decide_eq_true_2 by done. eexists. split; [done|].
    repeat split; try done.
  - rewrite bool_decide_eq_false_2 by done.
    destruct (botMove_select_spec (difficulty g) rnd O (state g) Hne)
      as (m & Hsel & Hin).
    rewrite Hsel.
    destruct (apply_undo m O (state g) (generated_applicable _ _ _ Hin))
      as (s2 & Ha & _).
    rewrite Ha.
    assert (Hpush : state g ≠ s2).
    { intros <-. destruct m as [index sz|from to sz]; unfold applyMove in Ha.
      - injection Ha as Hs. apply (f_equal (λ s, length (board s !!! index))) in Hs.
        cbn [board] in Hs. rewrite vlookup_insert in Hs. unfold push in Hs.
        rewrite length_app in Hs. simpl in Hs. lia.
      - pose proof (generated_legal _ _ _ Hin) as Hl.
        apply legal_move_inv in Hl as (t & _ & _ & _ & _ & Hft).
        destruct (pop (board (state g) !!! from)) as [[mv|] rest] eqn:Hpop; [|done].
        injection Ha as Hs. apply pop_Some in Hpop.
        apply (f_equal (λ s, length (board s !!! from))) in Hs.
        cbn [board] in Hs. rewrite vlookup_insert_ne, vlookup_insert in Hs by done.
        rewrite Hpop in Hs. unfold push in Hs. rewrite length_app in Hs.
        simpl in Hs. lia. }
    destruct (checkWinner s2) eqn:Hw; eexists; (split; [done|]).
    + split; [done|]. split; [done|]. split; [done|]. split.
      * split; [done|]. intros E. apply (f_equal state) in E. by symmetry in E.
      * intros _. exists m. cbn [endGame set_state state]. rewrite Hw.
        by repeat split.
    + split; [done|]. split; [done|]. split; [done|]. split.
      * split; [done|]. intros E. apply (f_equal state) in E. by symmetry in E.
      * intros _. exists m.
        cbn [switchTurn cancelSelectAll set_state state currentPlayer
             selectedSize selectedFrom ended].
        rewrite Hw, other_switch. by repeat split.
Qed.

(** X14: what a bot move does. [botMove] always completes, whatever the
    difficulty string and the random draw, and keeps mode, difficulty and
    timers. With no generated move for [O] it ends the game as a draw and
    changes nothing else. Otherwise it applies one generated move of [O]
    (it does not ask whose turn it is); if [checkWinner] then holds the
    game ends with the bot named as winner, else the player to move is
    switched and both selections are cleared. *)
Theorem botMove_contract (rnd : nat) (g : Game) :
  ∃ g',
    botMove rnd g = Some g' ∧
    mode g' = mode g ∧ difficulty g' = difficulty g ∧
    botTimers g' = botTimers g ∧
    (generateAllMoves O (state g) = [] ↔ g' = endGame msgDraw g) ∧
    (generateAllMoves O (state g) ≠ [] →
     ∃ m,
       m ∈ generateAllMoves O (state g) ∧
       applyMove m O (state g) = Some (tt, state g') ∧
       if checkWinner (state g')
       then ended g' = Some (msgBotWins (difficulty g)) ∧
            currentPlayer g' = currentPlayer g ∧
            selectedSize g' = selectedSize g ∧ selectedFrom g' = selectedFrom g
       else ended g' = ended g ∧ currentPlayer g' = other (currentPlayer g) ∧
            selectedSize g' = None ∧ selectedFrom g' = None).
Proof. exact (botMove_cases rnd g). Qed.

(** ** What every sequence of events keeps *)

Lemma pageLoad_ok qm qd qp : game_ok (pageLoad qm qd qp).
Proof.
  unfold game_ok, pageLoad. cbn [state ended]. split; [apply reachable_init|].
  split; [by intros _ from [=]|]. split; [by left|done].
Qed.

Lemma dispatch_ok e g g' : game_ok g → dispatch e g = Some g' → game_ok g'.
Proof.
  intros (Hreach & Hsel & Hexcl & Hdraw) Hd.
  destruct e as [index|sz| |v|v|rnd]; cbn [dispatch] in Hd.
  - destruct (ended g) eqn:Hen; [done|]. injection Hd as <-.
    specialize (Hsel eq_refl).
    destruct (handleCellClick_cases index g Hsel) as (_ & _ & Hcase).
    split; [by apply handleCellClick_reachable|].
    split; [intros _; by apply handleCellClick_selection_ok|].
    split.
    + destruct Hcase as [(Hst & _)|(m & _ & _ & _ & _ & Hsf & _)]; [|by right].
      clear Hst. unfold handleCellClick.
      destruct (bool_decide (selectedFrom g = Some index)); [by left|].
      destruct (match topAt _ _ with Some _ => _ | None => _ end); [by left|].
      destruct (selectedFrom g) as [from|] eqn:Hfrom.
      * destruct (pop _) as [[mp|] rest]; [|done].
        destruct (negb _); [done|]. right. by apply afterHumanMove_selection.
      * destruct (selectedSize g) as [sz|]; [|done].
        destruct (negb _); [by right|]. right. by apply afterHumanMove_selection.
    + destruct Hcase as [(_ & _ & -> & _)|(m & _ & _ & _ & _ & _ & Hif)];
        [by rewrite Hen|].
      destruct (checkWinner _).
      * destruct Hif as (-> & _). done.
      * destruct Hif as (-> & _). by rewrite Hen.
  - injection Hd as <-. unfold pieceButtonClick.
    destruct (bool_decide _); cbn; repeat split; try done;
      try (by intros _ from [=]); by right.
  - injection Hd as <-. unfold game_ok, resetClick. cbn [state ended].
    split; [apply reachable_init|]. split; [by intros _ from [=]|].
    split; [by left|done].
  - by injection Hd as <-.
  - by injection Hd as <-.
  - destruct (botTimers g) as [|n]; [done|].
    set (g1 := mkGame _ _ _ _ _ _ _ n) in Hd.
    destruct (botMove_cases rnd g1) as (g2 & Hbot & _ & _ & _ & Hnil & Hmove).
    assert (g2 = g') as -> by congruence.
    pose proof (reachable_has_move (state g) O Hreach) as Hne.
    destruct (Hmove Hne) as (m & Hin & Ha & Hif).
    split; [|split; [|split]].
    + eapply reachable_step; [exact Hreach|by apply generated_legal|exact Ha].
    + destruct (checkWinner _).
      * destruct Hif as (-> & _). done.
      * destruct Hif as (_ & _ & _ & Hsf). intros _ from. by rewrite Hsf.
    + unfold selection_exclusive. destruct (checkWinner _).
      * destruct Hif as (_ & _ & -> & ->). exact Hexcl.
      * destruct Hif as (_ & _ & -> & _). by left.
    + destruct (checkWinner _).
      * destruct Hif as (-> & _). done.
      * destruct Hif as (-> & _). exact Hdraw.
Qed.

Lemma run_ok es : ∀ g g', game_ok g → run es g = Some g' → game_ok g'.
Proof.
  induction es as [|e es IH]; intros g g' Hok Hrun; cbn [run] in Hrun.
  - by injection Hrun as <-.
  - destruct (dispatch e g) as [g1|] eqn:Hd; [|done].
    eapply IH; [|exact Hrun]. by eapply dispatch_ok.
Qed.

(** X15: what every sequence of events keeps. After any sequence of clicks
    on cells and size buttons, resets, changes of mode and difficulty and
    firings of bot timers, from the page load with any URL parameters, the
    position is one that legal moves from the initial state produce: so
    every stack is strictly increasing, every count is between 0 and 2 and
    either player has a legal move. While the game is on, a selected source
    cell shows a piece of the player to move; and never are a size and a
    source cell selected together. *)
Theorem run_keeps_game_ok (qMode qDiff qPlayer : option string)
  (es : list Event) (g : Game) :
  run es (pageLoad qMode qDiff qPlayer) = Some g →
  reachable (state g) ∧
  (∀ i, increasing (board (state g) !!! i)) ∧
  (∀ p sz, 0 <= left_get (piecesLeft (state g)) p sz <= 2) ∧
  (∀ p, generateAllMoves p (state g) ≠ []) ∧
  (ended g = None → selection_ok g) ∧
  selection_exclusive g.
Proof.
  intros Hrun.
  destruct (run_ok es _ g (pageLoad_ok qMode qDiff qPlayer) Hrun)
    as (Hreach & Hsel & Hexcl & _).
  split; [done|]. split.
  { clear Hsel Hexcl Hrun. induction Hreach as [|s p m s' _ IH Hlegal Ha].
    - apply init_increasing.
    - by apply (step_increasing s p m s'). }
  split.
  { assert (H : ∀ q sz, 0 <= left_get (piecesLeft (state g)) q sz ∧
       Z.of_nat (piecesOnBoard q sz (board (state g)))
       + left_get (piecesLeft (state g)) q sz = 2).
    { clear Hsel Hexcl Hrun. induction Hreach as [|s p m s' _ IH Hlegal Ha].
      - by intros [] [].
      - by apply (step_pieces_conserved s p m s'). }
    intros p sz. destruct (H p sz). lia. }
  split; [intros p; by apply reachable_has_move|]. by split.
Qed.

(** X16: the game never ends in a draw. After any sequence of events from
    the page load, [endGame] has not been called with the draw message, and
    a bot timer that fires finds a move to make: [botMove] completes and
    does not take its draw branch. *)
Theorem run_never_draws (qMode qDiff qPlayer : option string)
  (es : list Event) (g : Game) :
  run es (pageLoad qMode qDiff qPlayer) = Some g →
  ended g ≠ Some msgDraw ∧
  ∀ rnd, ∃ g', botMove rnd g = Some g' ∧ g' ≠ endGame msgDraw g ∧
               ended g' ≠ Some msgDraw.
Proof.
  intros Hrun.
  destruct (run_ok es _ g (pageLoad_ok qMode qDiff qPlayer) Hrun)
    as (Hreach & _ & _ & Hdraw).
  split; [done|]. intros rnd.
  destruct (botMove_cases rnd g) as (g' & Hbot & _ & _ & _ & Hnil & Hmove).
  pose proof (reachable_has_move (state g) O Hreach) as Hne.
  exists g'. split; [done|]. split.
  - intros E. by apply Hnil in E.
  - destruct (Hmove Hne) as (m & _ & _ & Hif). destruct (checkWinner _).
    + destruct Hif as (-> & _). done.
    + destruct Hif as (-> & _). done.
Qed.

Lemma run_keeps_game_ok_witness :
  ∃ g, run [pieceButtonClicked small; cellClicked 4%fin; botTimerFired 3]
           (pageLoad (Some "1p"%string) (Some "hard"%string) None) = Some g ∧
       reachable (state g) ∧ selection_exclusive g.
Proof.
  eexists. split; [vm_compute; reflexivity|].
  destruct (run_keeps_game_ok (Some "1p"%string) (Some "hard"%string) None
              [pieceButtonClicked small; cellClicked 4%fin; botTimerFired 3] _
              ltac:(vm_compute; reflexivity)) as (H1 & _ & _ & _ & _ & H2).
  by split.
Defined.

Lemma run_never_draws_witness :
  ∃ g, run [pieceButtonClicked small; cellClicked 4%fin; botTimerFired 3]
           (pageLoad (Some "1p"%string) (Some "hard"%string) None) = Some g ∧
       ended g ≠ Some msgDraw.
Proof.
  eexists. split; [vm_compute; reflexivity|].
  exact (proj1 (run_never_draws (Some "1p"%string) (Some "hard"%string) None
                  [pieceButtonClicked small; cellClicked 4%fin; botTimerFired 3] _
                  ltac:(vm_compute; reflexivity))).
Defined.

(** ** Selecting and deselecting *)

(** X17: a second click undoes a selection. Pressing the size button that
    is already selected, or clicking the own piece that is already selected
    as the source, clears both selections; so pressing a size button twice,
    or clicking an own top piece twice, leaves the game as
    [cancelSelectAll] does, with the board, the inventories and the turn
    untouched. *)
Theorem second_click_deselects :
  (∀ sz g,
     selectedSize g ≠ Some sz →
     selectedSize (pieceButtonClick sz g) = Some sz ∧
     selectedFrom (pieceButtonClick sz g) = None ∧
     pieceButtonClick sz (pieceButtonClick sz g) = cancelSelectAll g) ∧
  (∀ index g t,
     topAt (board (state g)) index = Some t → player t = currentPlayer g →
     selectedFrom g ≠ Some index →
     selectedFrom (handleCellClick index g) = Some index ∧
     selectedSize (handleCellClick index g) = None ∧
     handleCellClick index (handleCellClick index g) = cancelSelectAll g).
Proof.
  split.
  - intros sz g Hne.
    assert (H1 : pieceButtonClick sz g =
                 mkGame (state g) (mode g) (difficulty g) (currentPlayer g)
                   (Some sz) None (ended g) (botTimers g)).
    { unfold pieceButtonClick. by rewrite (bool_decide_eq_false_2 _ Hne). }
    rewrite H1. cbn [selectedSize selectedFrom]. split; [done|]. split; [done|].
    unfold pieceButtonClick. cbn [selectedSize].
    by rewrite bool_decide_eq_true_2.
  - intros index g t Et Hp Hne.
    assert (H1 : handleCellClick index g =
                 mkGame (state g) (mode g) (difficulty g) (currentPlayer g) None
                   (Some index) (ended g) (botTimers g)).
    { unfold handleCellClick. rewrite (bool_decide_eq_false_2 _ Hne), Et.
      by rewrite (bool_decide_eq_true_2 _ Hp). }
    rewrite H1. cbn [selectedSize selectedFrom]. split; [done|]. split; [done|].
    unfold handleCellClick. cbn [selectedFrom].
    by rewrite bool_decide_eq_true_2.
Qed.

Lemma second_click_deselects_witness :
  pieceButtonClick small (pieceButtonClick small startGame)
  = cancelSelectAll startGame ∧
  (let g := mkGame centreState "2p" "easy" X None None None 0 in
   handleCellClick 4%fin (handleCellClick 4%fin g) = cancelSelectAll g).
Proof.
  destruct second_click_deselects as [H1 H2]. split.
  - apply H1. discriminate.
  - apply (H2 4%fin _ (mkPiece X small)); [reflexivity|reflexivity|discriminate].
Defined.

(** ** No move is listed twice *)

Lemma NoDup_cells : NoDup cells.
Proof.
  apply (bool_decide_unpack _). by vm_compute.
Qed.

Lemma NoDup_if_singleton {A} (c : bool) (x : A) : NoDup (if c then [x] else []).
Proof. destruct c; [apply NoDup_singleton|apply NoDup_nil_2]. Qed.

Lemma elem_of_if_singleton {A} (c : bool) (x y : A) :
  y ∈ (if c then [x] else []) → y = x.
Proof. destruct c; [by intros ->%list_elem_of_singleton|by intros ?%elem_of_nil]. Qed.

Lemma generated_NoDup p s : NoDup (generateAllMoves p s).
Proof.
  rewrite generateAllMoves_spec_eq. unfold generateMoves_spec.
  apply NoDup_app. split; [|split].
  - unfold placements_spec. apply NoDup_bind.
    + intros sz1 sz2 y _ _ (i1 & H1 & _)%list_elem_of_bind (i2 & H2 & _)%list_elem_of_bind.
      apply elem_of_if_singleton in H1, H2. congruence.
    + intros sz _. apply NoDup_bind; [|intros; apply NoDup_if_singleton|apply NoDup_cells].
      intros i1 i2 y _ _ H1 H2. apply elem_of_if_singleton in H1, H2. congruence.
    + apply (bool_decide_unpack _). by vm_compute.
  - intros x (i & sz & -> & _)%elem_of_placements
      (from & to & t & [=] & _)%elem_of_relocations.
  - unfold relocations_spec. apply NoDup_bind.
    + intros f1 f2 y _ _ (t1 & H1 & _)%list_elem_of_bind (t2 & H2 & _)%list_elem_of_bind.
      destruct (topAt (board s) f1) as [a|]; [|by apply elem_of_nil in H1].
      destruct (topAt (board s) f2) as [b|]; [|by apply elem_of_nil in H2].
      apply elem_of_if_singleton in H1, H2. congruence.
    + intros from _. apply NoDup_bind; [| |apply NoDup_cells].
      * intros t1 t2 y _ _ H1 H2.
        destruct (topAt (board s) from) as [a|]; [|by apply elem_of_nil in H1].
        apply elem_of_if_singleton in H1, H2. congruence.
      * intros to _. destruct (topAt (board s) from); [|apply NoDup_nil_2].
        apply NoDup_if_singleton.
    + apply NoDup_cells.
Qed.

(** X18: no move is listed twice. The list of [generateAllMoves] has no
    duplicates, so every candidate is tried once by the searches and the
    first-found tie-breaks name one definite move. *)
Theorem generateAllMoves_NoDup (p : Player) (s : State) :
  NoDup (generateAllMoves p s).
Proof. exact (generated_NoDup p s). Qed.

(** X23: the draw reaches every legal move, each through one index. For
    every move [m] of the list of [generateAllMoves] there is exactly one
    index below [moves.length] at which [moves[index]] is [m]: the drawn
    move is [m] exactly when [Math.floor(Math.random()*moves.length)] is
    that index, so the draw of the tier "easy" and of the fallback of the
    other tiers is as even over the legal moves as the index is over
    0 .. [moves.length] - 1. *)
Theorem randomMove_each_once (p : Player) (s : State) (m : Move) :
  m ∈ generateAllMoves p s →
  ∃ i, (i < length (generateAllMoves p s))%nat ∧
       ∀ rnd, (rnd < length (generateAllMoves p s))%nat →
              (randomMove rnd (generateAllMoves p s) = Some m ↔ rnd = i).
Proof.
  intros Hin. apply list_elem_of_lookup_1 in Hin as [i Hi].
  exists i. split; [by eapply lookup_lt_Some|].
  intros rnd Hlt. unfold randomMove. rewrite Nat.mod_small by done. split.
  - intros Hr. by eapply NoDup_lookup; [apply generated_NoDup| |].
  - by intros ->.
Qed.

Lemma randomMove_each_once_witness :
  place 4%fin medium ∈ generateAllMoves O centreState ∧
  ∃ i, (i < length (generateAllMoves O centreState))%nat ∧
       ∀ rnd, (rnd < length (generateAllMoves O centreState))%nat →
              (randomMove rnd (generateAllMoves O centreState)
               = Some (place 4%fin medium) ↔ rnd = i).
Proof.
  assert (H : place 4%fin medium ∈ generateAllMoves O centreState)
    by (apply (bool_decide_unpack _); by vm_compute).
  split; [exact H|]. exact (randomMove_each_once O centreState _ H).
Defined.

(** ** Whose line it is *)

Lemma lineWon_owner b c1 c2 c3 :
  lineWon b (c1, c2, c3) →
  ∃ q, ∀ c, c ∈ [c1; c2; c3] → ∃ t, topAt b c = Some t ∧ player t = q.
Proof.
  intros (A & B & C & HA & HB & HC & H1 & H2 & H3). exists (player A).
  intros c Hc. repeat (apply elem_of_cons in Hc as [->|Hc]); eauto.
  by apply elem_of_nil in Hc.
Qed.

(** X19: a win by placement is the mover's. When no line is complete and a
    player places a piece, every line that is complete afterwards runs
    through the placed piece and shows three pieces of that player; so if
    [checkWinner] holds after the placement, [detectWinnerPlayer] names the
    mover, the player the script announces. *)
Theorem placement_win_is_movers (s s' : State) (p : Player) (index : Cell)
  (sz : Size) :
  checkWinner s = false →
  applyMove (place index sz) p s = Some (tt, s') →
  (∀ c1 c2 c3, (c1, c2, c3) ∈ lines8 → lineWon (board s') (c1, c2, c3) →
     index ∈ [c1; c2; c3] ∧
     ∀ c, c ∈ [c1; c2; c3] → ∃ t, topAt (board s') c = Some t ∧ player t = p) ∧
  (checkWinner s' = true → detectWinnerPlayer s' = Some p).
Proof.
  intros Hno Ha.
  assert (Htop : topAt (board s') index = Some (mkPiece p sz)).
  { unfold applyMove in Ha. injection Ha as <-. unfold topAt. cbn [board].
    by rewrite vlookup_insert, top_push. }
  assert (Hline : ∀ c1 c2 c3, (c1, c2, c3) ∈ lines8 →
            lineWon (board s') (c1, c2, c3) →
            index ∈ [c1; c2; c3] ∧
            ∀ c, c ∈ [c1; c2; c3] →
              ∃ t, topAt (board s') c = Some t ∧ player t = p).
  { intros c1 c2 c3 Hl Hwon.
    assert (Hin : index ∈ [c1; c2; c3]).
    { destruct (decide (index ∈ [c1; c2; c3])) as [|Hnotin]; [done|]. exfalso.
      assert (Hsame : ∀ c, c ∈ [c1; c2; c3] → topAt (board s') c = topAt (board s) c).
      { intros c Hc. unfold topAt.
        rewrite (applyMove_frame_board (place index sz) p s s' c Ha); [done|].
        cbn [touches]. by intros ->. }
      assert (Hbefore : lineWon (board s) (c1, c2, c3)).
      { destruct Hwon as (A & B & C & HA & HB & HC & Hrest).
        exists A, B, C. rewrite <- !Hsame by repeat constructor. done. }
      assert (checkWinner s = true); [|congruence].
      unfold checkWinner. rewrite wins_lines8. apply checkWinner_scan_iff.
      by exists (c1, c2, c3). }
    split; [done|].
    destruct (lineWon_owner _ _ _ _ Hwon) as (q & Hq).
    destruct (Hq index Hin) as (t & Ht & Hpt).
    rewrite Htop in Ht. injection Ht as <-. cbn [player] in Hpt. by subst q. }
  split; [exact Hline|].
  intros Hw. apply detect_is_Some_check in Hw as [q Hq]. rewrite Hq. f_equal.
  unfold detectWinnerPlayer in Hq. rewrite wins_same, wins_lines8 in Hq.
  apply detect_scan_owner in Hq
    as (c1 & c2 & c3 & A & B & C & Hl & HA & HB & HC & HpA & HpB & HpC).
  destruct (Hline c1 c2 c3 Hl) as (_ & Hown).
  { exists A, B, C. repeat split; congruence. }
  destruct (Hown c1) as (t & Ht & Hpt); [left|]. congruence.
Qed.

Lemma placement_win_is_movers_witness :
  ∃ s', applyMove (place 2%fin small) O threatState = Some (tt, s') ∧
        detectWinnerPlayer s' = Some O.
Proof.
  eexists. split; [reflexivity|].
  eapply (placement_win_is_movers threatState _ O 2%fin small);
    reflexivity.
Defined.

(** X20: a win by relocation is credited to the mover even when the line is
    the opponent's. There is a game of two players, played by clicks from
    the page load, in which [X] moves a piece off a piece of [O] and so
    completes a line of [O]: the script ends the game announcing [X],
    though [detectWinnerPlayer] names [O] and no line shows three pieces of
    [X]. *)
Theorem relocation_win_credits_mover :
  ∃ g,
    run uncoveringRun (pageLoad None None None) = Some g ∧
    ended g = Some (msgWins X) ∧
    detectWinnerPlayer (state g) = Some O ∧
    existsb (ownsLine X (board (state g))) lines8 = false ∧
    existsb (ownsLine O (board (state g))) lines8 = true.
Proof. eexists. split; [vm_compute; reflexivity|]. by vm_compute. Qed.

(** ** A reset and a pending bot move *)

Lemma first_move_no_winner m :
  m ∈ generateAllMoves O initialState →
  ∃ s2, applyMove m O initialState = Some (tt, s2) ∧ checkWinner s2 = false.
Proof.
  intros Hin.
  assert (Hall : forallb (λ m, negb (winsAfter O initialState m))
                   (generateAllMoves O initialState) = true) by by vm_compute.
  rewrite forallb_forall in Hall.
  pose proof (Hall m (proj1 (list_elem_of_In _ _) Hin)) as Hm.
  apply negb_true_iff in Hm.
  destruct (apply_undo m O initialState (generated_applicable _ _ _ Hin))
    as (s2 & Ha & _).
  exists s2. split; [done|]. by apply (winsAfter_false O initialState m).
Qed.

(** X21: a reset does not cancel a pending bot move. If a bot timer is
    pending when the reset button is clicked, the timer still fires: the
    bot makes the first move on the new board, a placement of [O], and the
    turn then passes from [X] to [O], the bot's own side, with no timer
    left from this move. *)
Theorem reset_keeps_bot_timer (rnd : nat) (g : Game) :
  (0 < botTimers g)%nat →
  ∃ g' index sz,
    dispatch (botTimerFired rnd) (resetClick g) = Some g' ∧
    applyMove (place index sz) O initialState = Some (tt, state g') ∧
    currentPlayer (resetClick g) = X ∧ currentPlayer g' = O ∧
    ended g' = None ∧ botTimers g' = Nat.pred (botTimers g).
Proof.
  intros Hpos. cbn [dispatch resetClick botTimers].
  destruct (botTimers g) as [|n] eqn:Hn; [lia|].
  set (g1 := mkGame initialState (mode g) (difficulty g) X None None None n).
  destruct (botMove_cases rnd g1) as (g' & Hbot & _ & _ & Hbt & _ & Hmove).
  destruct Hmove as (m & Hin & Ha & Hif); [by vm_compute|].
  destruct (first_move_no_winner m Hin) as (s2 & Ha2 & Hw).
  assert (state g' = s2) as Hs by (cbn [state g1] in Ha; congruence).
  rewrite Hs, Hw in Hif. destruct Hif as (Hen & Hcp & _).
  assert (∃ index sz, m = place index sz) as (index & sz & ->).
  { apply generated_legal in Hin. destruct m as [index sz|from to sz]; [eauto|].
    exfalso. unfold legal, topAt in Hin. subst g1.
    cbn [state board initialState] in Hin.
    by rewrite vlookup_replicate in Hin. }
  exists g', index, sz. rewrite Hs. repeat split; try done.
Qed.

Lemma reset_keeps_bot_timer_witness :
  ∃ g', dispatch (botTimerFired 0)
          (resetClick (mkGame centreState "1p" "easy" O None None None 1))
        = Some g' ∧ currentPlayer g' = O.
Proof.
  destruct (reset_keeps_bot_timer 0
              (mkGame centreState "1p" "easy" O None None None 1))
    as (g' & index & sz & H1 & _ & _ & H2 & _).
  - cbn. lia.
  - by exists g'.
Defined.

Lemma pruning_keeps_value_witness :
  Num_le (Int 5) (Int (-5)) = false ∧
  ∃ v, minimax 1 false O X (Int (-5)) (Int 5) 4 centreState
       = Some (Int v, centreState) ∧
       failSoft (Int (-5)) (Int 5) v (exactValue 4 1 false O X 4 centreState).
Proof.
  split; [reflexivity|].
  exact (proj2 (pruning_keeps_value 1 false O X 4 centreState)
           (Int (-5)) (Int 5) eq_refl).
Defined.
